(** * Combination-lock word matcher: a shallow embedding

    The program reads a lock description (wheels.txt), builds one table of
    26 flags per wheel, and slides every dictionary word along the wheels,
    counting the alignments at which every letter of the word is present on
    the wheel it faces.

    Conventions of the embedding
    - [char] values are [ascii]; their integer value is the signed one of
      the target ([char_to_int]).
    - [unsigned int] and [int] are 32 bits wide, [size_t] is 64 bits wide;
      every wrap-around is written out with [to_uint] and [to_int].
    - The tables behind [bool** wheels] are a [list (list bool)]; a read or
      write outside of an allocated table has no defined result and is a
      fault of the run ([None]).  So is every other step the language
      leaves undefined: a signed overflow, and the end of a function that
      returns a value reached without a [return].
    - Files are the characters delivered by a text-mode [ifstream]. *)

From Stdlib Require Import ZArith Ascii String Lia.
From stdpp Require Import base option list.

Local Open Scope Z_scope.

(** ** Machine integers and characters *)

Module Machine.

Definition UINT_MAX : Z := 2 ^ 32 - 1.
Definition INT_MAX : Z := 2 ^ 31 - 1.

(** Conversion to [unsigned int]. *)
Definition to_uint (z : Z) : Z := z mod 2 ^ 32.

(** Conversion to [int] (two's complement). *)
Definition to_int (z : Z) : Z :=
  let u := z mod 2 ^ 32 in if u <? 2 ^ 31 then u else u - 2 ^ 32.

(** Integer value of a [char] (signed, 8 bits). *)
Definition char_to_int (c : ascii) : Z :=
  let n := Z.of_N (N_of_ascii c) in if n <? 128 then n else n - 256.

#[global] Instance char_eq_dec : EqDecision ascii := ascii_dec.

Definition NUL : ascii := "000"%char.
Definition NL : ascii := "010"%char.

(** [isalpha], [tolower] and [isspace] of the "C" locale. *)
Definition isalpha (c : ascii) : bool :=
  let n := N_of_ascii c in
  ((65 <=? n) && (n <=? 90) || (97 <=? n) && (n <=? 122))%N.

Definition tolower (c : ascii) : ascii :=
  let n := N_of_ascii c in
  if ((65 <=? n) && (n <=? 90))%N then ascii_of_N (n + 32) else c.

Definition toupper (c : ascii) : ascii :=
  let n := N_of_ascii c in
  if ((97 <=? n) && (n <=? 122))%N then ascii_of_N (n - 32) else c.

Definition isspace (c : ascii) : bool :=
  let n := N_of_ascii c in ((n =? 32) || (9 <=? n) && (n <=? 13))%N.

Definition isdigit (c : ascii) : bool :=
  let n := N_of_ascii c in ((48 <=? n) && (n <=? 57))%N.

Definition islower (c : ascii) : bool :=
  let n := N_of_ascii c in ((97 <=? n) && (n <=? 122))%N.

End Machine.
Import Machine.

Definition ALPHABETLENGTH : Z := 26.
Definition MAXWORDLENGTH : Z := 255.

(** [constexpr int alphabetindex(char letter) { return letter - 'a'; }] *)
Definition alphabetindex (letter : ascii) : Z :=
  char_to_int letter - char_to_int "a"%char.

(** ** The wheel tables and the reads and writes of a run *)

Abbreviation Wheel := (list bool).
Abbreviation Lock := (list (list bool)).

(** One access [wheels[wheel_ix][letter_ix]]. *)
Record Access : Type := MkAccess { wheel_ix : Z; letter_ix : Z }.

(** What a computation over the tables leaves behind: its value (or a
    fault), the tables afterwards, and the accesses it made, in order. *)
Record Run (A : Type) : Type :=
  MkRun { value : option A; heap : Lock; trace : list Access }.
Arguments MkRun {A} _ _ _.
Arguments value {A} _.
Arguments heap {A} _.
Arguments trace {A} _.

Definition M (A : Type) : Type := Lock -> Run A.

Definition ret {A} (a : A) : M A := fun h => MkRun (Some a) h [].

Definition bind {A B} (m : M A) (f : A -> M B) : M B := fun h =>
  let r := m h in
  match value r with
  | None => MkRun None (heap r) (trace r)
  | Some a => let r' := f a (heap r) in
              MkRun (value r') (heap r') (trace r ++ trace r')
  end.

Notation "x <~ m ;; k" := (bind m (fun x => k))
  (at level 100, m at next level, right associativity).

(** A read that does not touch the tables (the word buffer). *)
Definition lift {A} (o : option A) : M A := fun h => MkRun o h [].

Definition cell (h : Lock) (i k : Z) : option bool :=
  if (0 <=? i) && (0 <=? k)
  then match h !! Z.to_nat i with
       | Some w => w !! Z.to_nat k
       | None => None
       end
  else None.

(** [wheels[i][k]] as an rvalue. *)
Definition load (i k : Z) : M bool := fun h =>
  MkRun (cell h i k) h [MkAccess i k].

(** [wheels[i][k] = b]. *)
Definition store (i k : Z) (b : bool) : M unit := fun h =>
  match cell h i k with
  | Some _ =>
      MkRun (Some tt)
            (alter (fun w => <[Z.to_nat k := b]> w) (Z.to_nat i) h)
            [MkAccess i k]
  | None => MkRun None h [MkAccess i k]
  end.

Definition in_bounds (wheelCount : Z) (a : Access) : Prop :=
  0 <= wheel_ix a < wheelCount /\ 0 <= letter_ix a < ALPHABETLENGTH.

(** ** TestWord *)

(** The inner loop [for (j = 0; j < wordLength; j++)] at offset [i], with
    [n] iterations left; the result is the final value of [match]. *)
Fixpoint TestWord_letters (word : list ascii) (i : Z) (n : nat) (j : Z)
  : M bool :=
  match n with
  | O => ret true
  | S n' =>
      c <~ lift (if 0 <=? j then word !! Z.to_nat j else None) ;;
      present <~ load (i + j) (alphabetindex c) ;;
      if present : bool then TestWord_letters word i n' (j + 1)
      else ret false
  end.

(** The outer loop [for (i = 0; i <= space; i++)], [n] iterations left. *)
Fixpoint TestWord_offsets (word : list ascii) (wordLength : Z)
    (n : nat) (i : Z) (count : Z) : M Z :=
  match n with
  | O => ret count
  | S n' =>
      matched <~ TestWord_letters word i (Z.to_nat wordLength) 0 ;;
      TestWord_offsets word wordLength n' (i + 1)
        (if matched : bool then to_uint (count + 1) else count)
  end.

(** [int TestWord(bool** wheels, const char* word,
                  const uint wordLength, const uint wheelCount)] *)
Definition TestWord_space (wordLength wheelCount : Z) : Z :=
  to_uint (wheelCount - wordLength).

Definition TestWord (word : list ascii) (wordLength wheelCount : Z) : M Z :=
  let space := TestWord_space wordLength wheelCount in
  count <~ TestWord_offsets word wordLength (Z.to_nat (space + 1)) 0 0 ;;
  ret (to_int count).

(** ** Input streams

    An [ifstream] is the text still to be read and two state flags.  The
    functions below follow the library's input functions: [getline] is the
    unformatted one ([basic_istream::getline], delimiter the newline) and
    [extract_uint] is [operator>>(unsigned int&)]. *)

Record ifstream : Type :=
  MkStream { rest : list ascii; failbit : bool; eofbit : bool }.

Definition good (s : ifstream) : bool := negb (failbit s) && negb (eofbit s).
Definition fail (s : ifstream) : bool := failbit s.
Definition eof (s : ifstream) : bool := eofbit s.

(** Opening a file; [None] is a file that cannot be opened. *)
Definition open (file : option (list ascii)) : ifstream :=
  match file with
  | Some text => MkStream text false false
  | None => MkStream [] true false
  end.

(** What the extraction loop of [getline] did. *)
Record Extracted : Type :=
  MkExtracted { stored : list ascii;   (* characters copied to the buffer *)
                remaining : list ascii;
                chcount : Z;           (* characters taken from the stream *)
                hit_eof : bool;
                hit_full : bool }.

(** The loop of [getline]: at each character, first the end of the file,
    then the delimiter (taken and dropped), then the room left. *)
Fixpoint getline_loop (input : list ascii) (count : Z) : Extracted :=
  match input with
  | [] => MkExtracted [] [] 0 true false
  | c :: tl =>
      if Ascii.eqb c NL then MkExtracted [] tl 1 false false
      else if count - 1 <=? 0 then MkExtracted [] input 0 false true
      else let e := getline_loop tl (count - 1) in
           MkExtracted (c :: stored e) (remaining e) (chcount e + 1)
                       (hit_eof e) (hit_full e)
  end.

(** [s.getline(buf, count)]: the stream and the buffer afterwards. *)
Definition getline (s : ifstream) (buf : list ascii) (count : Z)
  : ifstream * list ascii :=
  if good s && (0 <? count) then
    let e := getline_loop (rest s) count in
    (MkStream (remaining e)
              (failbit s || hit_full e || (chcount e =? 0))
              (eofbit s || hit_eof e),
     stored e ++ NUL :: drop (S (length (stored e))) buf)
  else
    (MkStream (rest s) true (eofbit s), NUL :: drop 1 buf).

Fixpoint skipws (input : list ascii) : list ascii :=
  match input with
  | c :: tl => if isspace c then skipws tl else input
  | [] => []
  end.

(** The leading decimal digits of the input, their value, and what follows. *)
Fixpoint digits (input : list ascii) (seen : bool) (acc : Z)
  : bool * Z * list ascii :=
  match input with
  | c :: tl =>
      if isdigit c
      then digits tl true (10 * acc + (Z.of_N (N_of_ascii c) - 48))
      else (seen, acc, input)
  | [] => (seen, acc, [])
  end.

(** [s >> v] for an [unsigned int] whose value before is [old]: white space
    is skipped, then an optional sign and decimal digits are read.  A field
    without digits stores 0, a value out of range stores [UINT_MAX], both
    with [failbit]; a minus sign negates modulo 2^32; a stream that is not
    good, or that ends in the white space, leaves [v] as it was. *)
Definition extract_uint (s : ifstream) (old : Z) : Z * ifstream :=
  if negb (good s) then (old, MkStream (rest s) true (eofbit s))
  else
    match skipws (rest s) with
    | [] => (old, MkStream [] true true)
    | c :: tl =>
        let negative := Ascii.eqb c "-"%char in
        let body := if negative || Ascii.eqb c "+"%char then tl else c :: tl in
        let '(seen, v, after) := digits body false 0 in
        let at_end := match after with [] => true | _ => false end in
        if negb seen then (0, MkStream after true at_end)
        else if UINT_MAX <? v then (UINT_MAX, MkStream after true at_end)
        else (if negative then to_uint (- v) else v,
              MkStream after false at_end)
    end.

(** ** Outcomes *)

(** The exceptions of the program, one per message. *)
Inductive Error : Type :=
  | ErrOpenWheelFile        (* Unable to open wheel file *)
  | ErrWheelCount           (* Invalid value for wheel count *)
  | ErrLettersPerWheel      (* Invalid value for letters per wheel *)
  | ErrTooManyLetters       (* Wheel contained too many letters *)
  | ErrInsufficientLetters  (* Wheel contained insufficient letters *)
  | ErrNonAlphabetical      (* Non-alphabetical character found *)
  | ErrOpenDictionary       (* Unable to open dictionary file *)
  | ErrWordTooLong.         (* Word in dictionary exceeded maximum length *)

(** A call returns, throws, or leaves the defined behaviour of the
    language ([Fault]: an access outside of a table, a signed overflow,
    the end of a value-returning function reached without a [return]). *)
Inductive Result (A : Type) : Type :=
  | Ok (a : A)
  | Throw (e : Error)
  | Fault.
Arguments Ok {A} _.
Arguments Throw {A} _.
Arguments Fault {A}.

#[global] Instance Error_eq_dec : EqDecision Error.
Proof. solve_decision. Defined.

(** ** ReadWheelFile *)

(** The inner loop [for (j = 0; j < lettersPerWheel; j++)] over the line
    in [letters], for wheel [i], with [n] iterations left. *)
Fixpoint ReadWheelFile_letters (letters : list ascii) (i : Z) (n : nat)
    (j : Z) (wheels : Lock) : Result Lock :=
  match n with
  | O => Ok wheels
  | S n' =>
      match letters !! Z.to_nat j with
      | None => Fault
      | Some c =>
          if negb (isalpha c) then
            if Ascii.eqb c NUL then Throw ErrInsufficientLetters
            else Throw ErrNonAlphabetical
          else
            let r := store i (alphabetindex (tolower c)) true wheels in
            match value r with
            | Some _ => ReadWheelFile_letters letters i n' (j + 1) (heap r)
            | None => Fault
            end
      end
  end.

(** The outer loop [for (i = 0; i < wheelCount; i++)], [n] iterations left. *)
Fixpoint ReadWheelFile_wheels (lettersPerWheel : Z) (n : nat) (i : Z)
    (wheelFile : ifstream) (letters : list ascii) (wheels : Lock)
  : Result (Lock * list ascii) :=
  match n with
  | O => Ok (wheels, letters)
  | S n' =>
      let '(wheelFile', letters') :=
        getline wheelFile letters (to_uint (lettersPerWheel + 1)) in
      if fail wheelFile' then Throw ErrTooManyLetters
      else
        match ReadWheelFile_letters letters' i (Z.to_nat lettersPerWheel)
                                    0 wheels with
        | Ok wheels' =>
            ReadWheelFile_wheels lettersPerWheel n' (i + 1)
                                 wheelFile' letters' wheels'
        | Throw e => Throw e
        | Fault => Fault
        end
  end.

(** What [ReadWheelFile] leaves in its reference parameters. *)
Record LockData : Type :=
  MkLockData { ld_wheels : Lock; ld_letters : list ascii;
               ld_wheelCount : Z; ld_lettersPerWheel : Z }.

(** [void ReadWheelFile(bool**& wheels, char*& letters,
                        uint& wheelCount, uint& lettersPerWheel)]
    on the text of wheels.txt; [wheelCount0] and [lettersPerWheel0] are the
    values the caller's variables hold at the call. *)
Definition ReadWheelFile (file : option (list ascii))
    (wheelCount0 lettersPerWheel0 : Z) : Result LockData :=
  let wheelFile := open file in
  if negb (good wheelFile) then Throw ErrOpenWheelFile
  else
    let '(wheelCount, wheelFile) := extract_uint wheelFile wheelCount0 in
    if wheelCount =? 0 then Throw ErrWheelCount
    else if INT_MAX <? wheelCount then Fault   (* [++i] on an int overflows *)
    else
      let wheels : Lock :=
        replicate (Z.to_nat wheelCount)
                  (replicate (Z.to_nat ALPHABETLENGTH) false) in
      let '(lettersPerWheel, wheelFile) :=
        extract_uint wheelFile lettersPerWheel0 in
      if lettersPerWheel =? 0 then Throw ErrLettersPerWheel
      else if to_uint (lettersPerWheel + 1) =? 0 then Fault (* new char[0]{0} *)
      else
        let letters := replicate (Z.to_nat (to_uint (lettersPerWheel + 1))) NUL in
        let '(wheelFile, letters) := getline wheelFile letters 1 in
        match ReadWheelFile_wheels lettersPerWheel (Z.to_nat wheelCount) 0
                                   wheelFile letters wheels with
        | Ok (wheels, letters) =>
            Ok (MkLockData wheels letters wheelCount lettersPerWheel)
        | Throw e => Throw e
        | Fault => Fault
        end.

(** ** ProcessDictionary *)

(** What the program writes to the console, line by line. *)
Inductive Output : Type :=
  | OutWord (word : list ascii)   (* a matching word *)
  | OutFound (count : Z)          (* "Found <count> words." *)
  | OutError (e : Error)          (* the message of a caught exception *)
  | OutPrompt.                    (* "Hit enter to exit." *)

(** [strlen]: the index of the first NUL of the buffer. *)
Fixpoint strlen (buf : list ascii) : option Z :=
  match buf with
  | [] => None
  | c :: tl => if Ascii.eqb c NUL then Some 0
               else match strlen tl with
                    | Some n => Some (n + 1)
                    | None => None
                    end
  end.

(** The characters a [char*] prints as: those before the first NUL. *)
Fixpoint c_str (buf : list ascii) : list ascii :=
  match buf with
  | [] => []
  | c :: tl => if Ascii.eqb c NUL then [] else c :: c_str tl
  end.

(** The loop [for (int i = 0; i < length; ++i)] that checks and lowers the
    word in place, [n] iterations left. *)
Fixpoint normalise (n : nat) (i : Z) (validWord : bool) (word : list ascii)
  : option (bool * list ascii) :=
  match n with
  | O => Some (validWord, word)
  | S n' =>
      match word !! Z.to_nat i with
      | None => None
      | Some c =>
          normalise n' (i + 1) (validWord && isalpha c)
                    (<[Z.to_nat i := tolower c]> word)
      end
  end.

(** The variables of [ProcessDictionary] that live across iterations, the
    console, and a record of the calls of [TestWord] made so far (the word
    handed over at each call), kept for the statements about the loop. *)
Record Scan : Type :=
  MkScan { sc_file : ifstream; sc_word : list ascii; sc_count : Z;
           sc_wheels : Lock; sc_out : list Output;
           sc_calls : list (list ascii) }.

(** The second half of the loop body, from [if (!validWord)] on; [st]
    holds the stream and the buffer as the first half left them.  The
    result is [inl] to go on with the next iteration (also after a
    [continue]) and [inr] when the body throws or faults. *)
Definition ProcessDictionary_test (wheelCount : Z) (st : Scan) (length : Z)
    (validWord : bool) : Scan + (Scan * Result unit) :=
  if negb validWord then inl st
  else if wheelCount <? length then inl st
  else
    let r := TestWord (sc_word st) length wheelCount (sc_wheels st) in
    let calls := sc_calls st ++ [c_str (sc_word st)] in
    match value r with
    | None =>
        inr (MkScan (sc_file st) (sc_word st) (sc_count st) (heap r)
                    (sc_out st) calls, Fault)
    | Some result =>
        let matches := to_uint result in
        if 0 <? matches
        then inl (MkScan (sc_file st) (sc_word st)
                         (to_uint (sc_count st + matches)) (heap r)
                         (sc_out st ++ [OutWord (c_str (sc_word st))]) calls)
        else inl (MkScan (sc_file st) (sc_word st) (sc_count st) (heap r)
                         (sc_out st) calls)
    end.

(** One iteration of the [while] loop: read a line, take its length,
    check and lower it, then test it. *)
Definition ProcessDictionary_step (wheelCount : Z) (st : Scan)
  : Scan + (Scan * Result unit) :=
  let '(file, word) := getline (sc_file st) (sc_word st) (MAXWORDLENGTH + 1) in
  let st := MkScan file word (sc_count st) (sc_wheels st) (sc_out st)
                   (sc_calls st) in
  if fail file then inr (st, Throw ErrWordTooLong)
  else
    match strlen word with
    | None => inr (st, Fault)
    | Some len =>
        let length := to_uint len in
        match normalise (Z.to_nat length) 0 true word with
        | None => inr (st, Fault)
        | Some (validWord, word) =>
            ProcessDictionary_test wheelCount
              (MkScan file word (sc_count st) (sc_wheels st) (sc_out st)
                      (sc_calls st))
              length validWord
        end
    end.

(** The loop [while (!dictionaryFile.eof() && dictionaryFile.good())]; the
    result is [None] only when [fuel] iterations were not enough. *)
Fixpoint ProcessDictionary_loop (fuel : nat) (wheelCount : Z) (st : Scan)
  : option (Scan + (Scan * Result unit)) :=
  if negb (eof (sc_file st)) && good (sc_file st) then
    match fuel with
    | O => None
    | S fuel' =>
        match ProcessDictionary_step wheelCount st with
        | inl st' => ProcessDictionary_loop fuel' wheelCount st'
        | inr stop => Some (inr stop)
        end
    end
  else Some (inl st).

(** [int ProcessDictionary(bool**& wheels, const uint wheelCount,
                           const uint lettersPerWheel)]
    on the text of dictionary.txt: the state the call ends in (console,
    wheel tables, calls made) and how it ends.  Every iteration that goes
    on takes at least one character from the file, so the length of the
    file bounds the loop.  The function has no [return] statement: once
    the loop is left and the total is printed, control reaches the end of
    a function that returns [int], which the language leaves undefined;
    the call ends in [Fault] there, with the total on the console. *)
Definition ProcessDictionary (file : option (list ascii)) (wheels : Lock)
    (wheelCount lettersPerWheel : Z) : option (Scan * Result unit) :=
  let word := replicate (Z.to_nat (MAXWORDLENGTH + 1)) NUL in
  let dictionaryFile := open file in
  let st := MkScan dictionaryFile word 0 wheels [] [] in
  if negb (good dictionaryFile) then Some (st, Throw ErrOpenDictionary)
  else
    match ProcessDictionary_loop (S (length (rest dictionaryFile)))
                                 wheelCount st with
    | None => None
    | Some (inl st) =>
        Some (MkScan (sc_file st) (sc_word st) (sc_count st) (sc_wheels st)
                     (sc_out st ++ [OutFound (sc_count st)]) (sc_calls st),
              Fault)
    | Some (inr stop) => Some stop
    end.

(** [main]: the whole console output of a run on the two files, [None]
    when the run leaves the defined behaviour of the language (as it does
    when [ProcessDictionary] reaches its end). *)
Definition main (wheelsFile dictionaryFile : option (list ascii))
  : option (list Output) :=
  match ReadWheelFile wheelsFile 0 0 with
  | Ok d =>
      match ProcessDictionary dictionaryFile (ld_wheels d) (ld_wheelCount d)
                              (ld_lettersPerWheel d) with
      | Some (st, Ok _) =>          (* the call never ends this way *)
          Some (sc_out st ++ [OutPrompt])
      | Some (st, Throw e) => Some (sc_out st ++ [OutError e; OutPrompt])
      | Some (_, Fault) => None
      | None => None
      end
  | Throw e => Some [OutError e; OutPrompt]
  | Fault => None
  end.

(** ** Writing texts down *)

Definition text (s : string) : list ascii := list_ascii_of_string s.

(** The lines of a file, each but the last followed by a newline. *)
Fixpoint unlines (ls : list (list ascii)) : list ascii :=
  match ls with
  | [] => []
  | [l] => l
  | l :: tl => l ++ NL :: unlines tl
  end.

(** ** The matcher in the words of its description *)

(** Letter [c] is on wheel [w]: the flag at the letter's index is set. *)
Definition has_letter (w : Wheel) (c : ascii) : bool :=
  (0 <=? alphabetindex c) &&
  bool_decide (w !! Z.to_nat (alphabetindex c) = Some true).

(** The word fits at offset [s]: for every position [j] of the word, wheel
    [s + j] exists and holds the letter at [j]. *)
Definition matches_at (lock : Lock) (word : list ascii) (s : nat) : Prop :=
  forall (j : nat) (c : ascii), word !! j = Some c ->
    exists w : Wheel, lock !! (s + j)%nat = Some w /\ has_letter w c = true.

(** The same test, letter by letter against the wheels from the offset on. *)
Fixpoint alignedb (wheels : list Wheel) (word : list ascii) {struct word}
  : bool :=
  match word, wheels with
  | [], _ => true
  | c :: word', w :: wheels' => has_letter w c && alignedb wheels' word'
  | _ :: _, [] => false
  end.

Lemma alignedb_matches_at (lock : Lock) (word : list ascii) (s : nat) :
  alignedb (drop s lock) word = true <-> matches_at lock word s.
Proof.
  unfold matches_at. revert s.
  induction word as [|c word IH]; intros s; simpl.
  - split; [intros _ j c' Hj; destruct j; discriminate | done].
  - destruct (drop s lock) as [|w rest'] eqn:Hd.
    + split; [done|]. intros H.
      destruct (H 0%nat c eq_refl) as (w & Hw & _).
      rewrite Nat.add_0_r in Hw.
      apply lookup_lt_Some in Hw.
      apply (f_equal length) in Hd. rewrite length_drop in Hd. simpl in Hd. lia.
    + assert (Hs : lock !! s = Some w).
      { pose proof (lookup_drop lock s 0) as Hx.
        rewrite Hd, Nat.add_0_r in Hx. by symmetry. }
      assert (Hr : rest' = drop (S s) lock).
      { rewrite (drop_S _ _ _ Hs) in Hd. by inversion Hd. }
      rewrite andb_true_iff, Hr, IH. split.
      * intros [Hc Hall] [|j] c' Hj; simpl in Hj.
        -- inversion Hj; subst. exists w. by rewrite Nat.add_0_r.
        -- destruct (Hall j c' Hj) as (w' & Hw' & Hc').
           exists w'. split; [|done].
           by replace (s + S j)%nat with (S s + j)%nat by lia.
      * intros H. split.
        -- destruct (H 0%nat c eq_refl) as (w' & Hw' & Hc').
           rewrite Nat.add_0_r, Hs in Hw'. by inversion Hw'; subst.
        -- intros j c' Hj. destruct (H (S j) c' Hj) as (w' & Hw' & Hc').
           exists w'. split; [|done].
           by replace (S s + j)%nat with (s + S j)%nat by lia.
Qed.

#[global] Instance matches_at_dec lock word s : Decision (matches_at lock word s).
Proof.
  refine (cast_if (decide (alignedb (drop s lock) word = true)));
    abstract (by rewrite <- alignedb_matches_at).
Defined.

(** The number of offsets at which the word fits on the lock. *)
Definition alignments (lock : Lock) (word : list ascii) : Z :=
  Z.of_nat (length (filter (matches_at lock word)
                           (seq 0 (S (length lock - length word))))).

(** Every wheel has its 26 flags. *)
Definition tables_ok (wheels : Lock) : Prop :=
  Forall (fun w : Wheel => length w = Z.to_nat ALPHABETLENGTH) wheels.

(** A table as [ReadWheelFile] allocates it for [wheelCount] wheels. *)
Definition lock_of (lock : Lock) (wheelCount : Z) : Prop :=
  Z.of_nat (length lock) = wheelCount /\ wheelCount <= UINT_MAX /\
  Forall (fun w : Wheel => length w = Z.to_nat ALPHABETLENGTH) lock.

(** Calling [m] [n] times in a row, collecting the results. *)
Fixpoint call_times {A} (n : nat) (m : M A) : M (list A) :=
  match n with
  | O => ret []
  | S n' => a <~ m ;; l <~ call_times n' m ;; ret (a :: l)
  end.

(** A computation that leaves the tables as they are. *)
Definition read_only {A} (m : M A) : Prop := forall h : Lock, heap (m h) = h.

(** ** The dictionary, line by line

    First what the loop does with a line, read off its two checks (an
    empty line passes both); then the words of the description, which have
    at least one letter. *)

(** The word of a dictionary line as it is matched and printed. *)
Definition line_word (line : list ascii) : list ascii :=
  map tolower (c_str line).

(** The line passes the two checks of the loop: no character that is not
    a letter, and not longer than the lock. *)
Definition line_tested (wheelCount : Z) (line : list ascii) : bool :=
  forallb isalpha (c_str line) &&
  (Z.of_nat (length (c_str line)) <=? wheelCount).

(** What the loop adds to its count for a line. *)
Definition line_matches (lock : Lock) (wheelCount : Z) (line : list ascii)
  : Z :=
  if line_tested wheelCount line then alignments lock (line_word line) else 0.

(** The count of the loop after the lines [ls], before any wrap-around. *)
Definition total (lock : Lock) (wheelCount : Z) (ls : list (list ascii)) : Z :=
  foldr Z.add 0 (map (line_matches lock wheelCount) ls).

(** What the loop prints for the lines [ls]. *)
Definition printed (lock : Lock) (wheelCount : Z) (ls : list (list ascii))
  : list Output :=
  map (fun l => OutWord (line_word l))
      (filter (fun l => 0 < line_matches lock wheelCount l) ls).

Definition tested (wheelCount : Z) (ls : list (list ascii))
  : list (list ascii) :=
  map line_word (filter (fun l => line_tested wheelCount l = true) ls).

(** A word as the description has it: at least one character, and only
    letters. *)
Definition is_word (line : list ascii) : bool :=
  match c_str line with
  | [] => false
  | _ :: _ => forallb isalpha (c_str line)
  end.

(** The number of alignments of a dictionary line: those of its word when
    it is a word that is not longer than the lock, none otherwise. *)
Definition word_matches (lock : Lock) (wheelCount : Z) (line : list ascii)
  : Z :=
  if is_word line && (Z.of_nat (length (c_str line)) <=? wheelCount)
  then alignments lock (line_word line) else 0.

(** The sum of the alignment counts of the words of a dictionary. *)
Definition words_total (lock : Lock) (wheelCount : Z)
    (ls : list (list ascii)) : Z :=
  foldr Z.add 0 (map (word_matches lock wheelCount) ls).

(** The words of a dictionary with at least one alignment, in order. *)
Definition words_printed (lock : Lock) (wheelCount : Z)
    (ls : list (list ascii)) : list Output :=
  map (fun l => OutWord (line_word l))
      (filter (fun l => 0 < word_matches lock wheelCount l) ls).

(** A line that [getline] can deliver whole: no newline inside, at most
    [MAXWORDLENGTH] characters. *)
Definition line_ok (line : list ascii) : Prop :=
  (NL ∉ line) /\ Z.of_nat (length line) <= MAXWORDLENGTH.

(** The lines of a dictionary file whose last line is not empty (the file
    is not empty and does not end with a newline). *)
Definition dictionary_lines (ls : list (list ascii)) : Prop :=
  Forall line_ok ls /\ exists front l, ls = front ++ [l] /\ l <> [].

(** The scan state after a line was read and handled: [file'] and [word']
    are the stream and the buffer then. *)
Definition scan_line (lock : Lock) (wheelCount : Z) (line : list ascii)
    (file' : ifstream) (word' : list ascii) (st : Scan) : Scan :=
  MkScan file' word'
         (to_uint (sc_count st + line_matches lock wheelCount line)) lock
         (sc_out st ++ printed lock wheelCount [line])
         (sc_calls st ++ tested wheelCount [line]).

(** The scan state [st] at the start of an iteration, with [input] as what
    is left of the dictionary file. *)
Definition scan_at (input : list ascii) (st : Scan) : Scan :=
  MkScan (MkStream input false false) (sc_word st) (sc_count st)
         (sc_wheels st) (sc_out st) (sc_calls st).

(** The state in which [ProcessDictionary] enters its loop. *)
Definition scan_start (input : list ascii) (wheels : Lock) : Scan :=
  MkScan (MkStream input false false)
         (replicate (Z.to_nat (MAXWORDLENGTH + 1)) NUL) 0 wheels [] [].

(** ** The wheel file in the words of its description *)

(** The flags of a wheel once the letters of a line are set on it. *)
Definition set_letters (line : list ascii) (w : Wheel) : Wheel :=
  foldl (fun w c => <[Z.to_nat (alphabetindex (tolower c)) := true]> w) w line.

(** The tables once the wheels from [i] on carry the letters of [ls]. *)
Fixpoint fill (i : nat) (ls : list (list ascii)) (wheels : Lock) : Lock :=
  match ls with
  | [] => wheels
  | l :: ls' => fill (S i) ls' (alter (set_letters l) i wheels)
  end.

(** A line of exactly [n] alphabetic characters. *)
Definition wheel_line (n : Z) (line : list ascii) : Prop :=
  Z.of_nat (length line) = n /\ Forall (fun c => isalpha c = true) line.

(** Lines, each closed by a newline. *)
Fixpoint closed_lines (ls : list (list ascii)) : list ascii :=
  match ls with
  | [] => []
  | l :: ls' => l ++ NL :: closed_lines ls'
  end.

(** Both counts of wheels.txt are read, as [W] and [n], and the text goes
    on with a newline and [body]. *)
Definition header (text : list ascii) (W n : Z) (body : list ascii) : Prop :=
  exists s1,
    extract_uint (MkStream text false false) 0 = (W, s1) /\
    extract_uint s1 0 = (n, MkStream (NL :: body) false false).

(** The text holds no number where one is to be read: after the white
    space and an optional sign there is no digit. *)
Definition no_number (input : list ascii) : Prop :=
  match skipws input with
  | [] => True
  | c :: tl =>
      let body := if Ascii.eqb c "-"%char || Ascii.eqb c "+"%char
                  then tl else c :: tl in
      (digits body false 0).1.1 = false
  end.

(** The run on wheels.txt [file] ends in [ReadWheelFile] with exception
    [e]: nothing but its message and the prompt is printed, whatever the
    dictionary. *)
Definition aborts (file : option (list ascii)) (e : Error) : Prop :=
  ReadWheelFile file 0 0 = Throw e /\
  forall dictionary, main file dictionary = Some [OutError e; OutPrompt].

(** wheels.txt [text] declares [W] wheels of [n] letters, its first wheels
    are the lines [good], fewer than [W], and it goes on with [rest']. *)
Definition wheels_so_far (text : list ascii) (W n : Z)
    (good : list (list ascii)) (rest' : list ascii) : Prop :=
  0 < W <= INT_MAX /\ 0 < n < UINT_MAX /\
  header text W n (closed_lines good ++ rest') /\
  Forall (wheel_line n) good /\ Z.of_nat (length good) < W.

(** The lock of three wheels that each carry the letters a and b. *)
Definition lock_ab3 : Lock :=
  replicate 3 (true :: true :: replicate 24 false).

(** The tables of a lock whose wheels carry the letters of [lines]. *)
Definition lock_from (lines : list (list ascii)) : Lock :=
  fill 0 lines (replicate (length lines)
                          (replicate (Z.to_nat ALPHABETLENGTH) false)).

(** The lookups [wheels[i + j][alphabetindex c]] for the letters [c] of
    [letters], which stand at the positions from [j] on. *)
Fixpoint lookups (i j : Z) (letters : list ascii) : list Access :=
  match letters with
  | [] => []
  | c :: tl => MkAccess (i + j) (alphabetindex c) :: lookups i (j + 1) tl
  end.

(** * Properties *)

(** ** Characters *)

Lemma islower_alphabetindex (c : ascii) :
  islower c = true -> 0 <= alphabetindex c < ALPHABETLENGTH.
Proof.
  unfold islower, alphabetindex, ALPHABETLENGTH.
  intros H. apply andb_prop in H as [H1 H2].
  apply N.leb_le in H1, H2.
  change (char_to_int "a") with 97. unfold char_to_int.
  destruct (Z.ltb_spec (Z.of_N (N_of_ascii c)) 128); lia.
Qed.


(** ** The monad: reads leave the tables alone *)

Section ReadOnly.
Context {A B : Type}.

Lemma read_only_ret (a : A) : read_only (ret a).
Proof. by intros h. Qed.

Lemma read_only_lift (o : option A) : read_only (lift o).
Proof. by intros h. Qed.

Lemma read_only_load (i k : Z) : read_only (load i k).
Proof. by intros h. Qed.

Lemma read_only_bind (m : M A) (f : A -> M B) :
  read_only m -> (forall a, read_only (f a)) -> read_only (bind m f).
Proof.
  intros Hm Hf h. unfold bind. specialize (Hm h).
  destruct (value (m h)) as [a|]; simpl; [|done].
  by rewrite Hm, Hf.
Qed.
End ReadOnly.

Create HintDb ro.
#[local] Hint Resolve read_only_ret read_only_lift read_only_load : ro.

Lemma TestWord_letters_read_only word i n j :
  read_only (TestWord_letters word i n j).
Proof.
  revert j. induction n as [|n IH]; intros j; simpl; [auto with ro|].
  apply read_only_bind; [auto with ro|]. intros c.
  apply read_only_bind; [auto with ro|]. intros [|]; auto with ro.
Qed.

Lemma TestWord_offsets_read_only word wordLength n i count :
  read_only (TestWord_offsets word wordLength n i count).
Proof.
  revert i count. induction n as [|n IH]; intros i count; simpl;
    [auto with ro|].
  apply read_only_bind; [apply TestWord_letters_read_only|]. intros m. apply IH.
Qed.

Lemma TestWord_read_only word wordLength wheelCount :
  read_only (TestWord word wordLength wheelCount).
Proof.
  unfold TestWord. apply read_only_bind;
    [apply TestWord_offsets_read_only | auto with ro].
Qed.

(** ** The inner loop tests one alignment *)

Lemma bind_lift_Some {A B} (a : A) (f : A -> M B) (h : Lock) :
  bind (lift (Some a)) f h = f a h.
Proof. unfold bind, lift. simpl. by destruct (f a h). Qed.

Lemma bind_load {B} (i k : Z) (b : bool) (f : bool -> M B) (h : Lock) :
  cell h i k = Some b ->
  bind (load i k) f h =
  MkRun (value (f b h)) (heap (f b h)) (MkAccess i k :: trace (f b h)).
Proof. intros Hc. unfold bind, load. simpl. by rewrite Hc. Qed.

Lemma cell_has_letter (lock : Lock) (i : nat) (w : Wheel) (c : ascii) :
  lock !! i = Some w -> length w = Z.to_nat ALPHABETLENGTH ->
  islower c = true ->
  cell lock (Z.of_nat i) (alphabetindex c) = Some (has_letter w c).
Proof.
  intros Hw Hlen Hc. apply islower_alphabetindex in Hc.
  unfold cell, has_letter.
  replace (0 <=? Z.of_nat i) with true by (symmetry; apply Z.leb_le; lia).
  replace (0 <=? alphabetindex c) with true by (symmetry; apply Z.leb_le; lia).
  simpl. rewrite Nat2Z.id, Hw.
  destruct (w !! Z.to_nat (alphabetindex c)) as [b|] eqn:Hb.
  - destruct b; [by rewrite bool_decide_eq_true_2|].
    by rewrite bool_decide_eq_false_2.
  - apply lookup_ge_None in Hb. unfold ALPHABETLENGTH in *. lia.
Qed.

Lemma TestWord_letters_spec (lock : Lock) (word : list ascii) (s n k m : nat) :
  Forall (fun w : Wheel => length w = Z.to_nat ALPHABETLENGTH) lock ->
  Forall (fun c => islower c = true) (take m word) ->
  (k + n <= m)%nat -> (m <= length word)%nat ->
  (s + k + n <= length lock)%nat ->
  let r := TestWord_letters word (Z.of_nat s) n (Z.of_nat k) lock in
  value r = Some (alignedb (drop (s + k) lock) (take n (drop k word))) /\
  Forall (in_bounds (Z.of_nat (length lock))) (trace r).
Proof.
  intros Hlock Hword. revert k.
  induction n as [|n IH]; intros k Hk Hm Hs; simpl; [done|].
  destruct (lookup_lt_is_Some_2 word k ltac:(lia)) as [c Hc].
  destruct (lookup_lt_is_Some_2 lock (s + k)%nat ltac:(lia)) as [w Hw].
  assert (Hlow : islower c = true).
  { apply (proj1 (Forall_lookup _ _) Hword k).
    rewrite lookup_take_lt by lia. done. }
  pose proof (proj1 (Forall_lookup _ _) Hlock _ _ Hw) as Hlen.
  simpl in Hlen.
  rewrite (drop_S _ _ _ Hc), (drop_S _ _ _ Hw). simpl.
  replace (0 <=? Z.of_nat k) with true by (symmetry; apply Z.leb_le; lia).
  rewrite Nat2Z.id, Hc, bind_lift_Some, <- Nat2Z.inj_add.
  rewrite (bind_load _ _ _ _ _ (cell_has_letter _ _ _ _ Hw Hlen Hlow)). simpl.
  assert (Hin : in_bounds (Z.of_nat (length lock))
                  (MkAccess (Z.of_nat (s + k)) (alphabetindex c))).
  { split; simpl; [lia | by apply islower_alphabetindex]. }
  destruct (has_letter w c); simpl.
  - replace (Z.of_nat k + 1) with (Z.of_nat (S k)) by lia.
    assert (Hk' : (S k + n <= m)%nat) by lia.
    assert (Hs' : (s + S k + n <= length lock)%nat) by lia.
    destruct (IH (S k) Hk' Hm Hs') as [Hv Ht]. simpl in Hv, Ht.
    replace (s + S k)%nat with (S (s + k)) in Hv by lia.
    split; [done|]. by constructor.
  - split; [done|]. constructor; [done | constructor].
Qed.

(** ** The outer loop counts the alignments *)

Lemma bind_read_Some {A B} (m : M A) (f : A -> M B) (h : Lock) (a : A) :
  read_only m -> value (m h) = Some a ->
  bind m f h =
  MkRun (value (f a h)) (heap (f a h)) (trace (m h) ++ trace (f a h)).
Proof. intros Hm Hv. unfold bind. by rewrite Hv, Hm. Qed.

Lemma to_uint_small (z : Z) : 0 <= z <= UINT_MAX -> to_uint z = z.
Proof. unfold to_uint, UINT_MAX. intros H. apply Z.mod_small. lia. Qed.

Lemma to_int_small (z : Z) : 0 <= z <= INT_MAX -> to_int z = z.
Proof.
  unfold to_int, INT_MAX. intros H. rewrite Z.mod_small by lia.
  destruct (Z.ltb_spec z (2 ^ 31)); lia.
Qed.

Lemma to_uint_to_int (z : Z) : to_uint (to_int z) = to_uint z.
Proof.
  unfold to_uint, to_int.
  destruct (Z.ltb_spec (z mod 2 ^ 32) (2 ^ 31)).
  - apply Z.mod_mod. lia.
  - rewrite Zminus_mod, Z_mod_same_full, Z.sub_0_r, !Z.mod_mod; lia.
Qed.

Lemma to_uint_range (z : Z) : 0 <= to_uint z <= UINT_MAX.
Proof.
  unfold to_uint, UINT_MAX.
  pose proof (Z.mod_pos_bound z (2 ^ 32) ltac:(lia)). lia.
Qed.

Lemma to_uint_add_l (a b : Z) : to_uint (to_uint a + b) = to_uint (a + b).
Proof. unfold to_uint. by rewrite Zplus_mod_idemp_l. Qed.

Lemma to_int_to_uint (z : Z) : to_int (to_uint z) = to_int z.
Proof. unfold to_int, to_uint. by rewrite Z.mod_mod by lia. Qed.

Lemma TestWord_offsets_spec (lock : Lock) (buf : list ascii) (L n s : nat)
    (count : Z) :
  Forall (fun w : Wheel => length w = Z.to_nat ALPHABETLENGTH) lock ->
  Forall (fun c => islower c = true) (take L buf) ->
  (L <= length buf)%nat ->
  (n = 0 \/ s + n + L <= S (length lock))%nat ->
  0 <= count <= UINT_MAX ->
  let r := TestWord_offsets buf (Z.of_nat L) n (Z.of_nat s) count lock in
  value r =
    Some (to_uint (count + Z.of_nat (length (filter (matches_at lock (take L buf))
                                                    (seq s n))))) /\
  Forall (in_bounds (Z.of_nat (length lock))) (trace r).
Proof.
  intros Hlock Hword HL. revert s count.
  induction n as [|n IH]; intros s count Hs Hc; simpl.
  { split; [|constructor]. rewrite Z.add_0_r, to_uint_small; done. }
  destruct Hs as [Hs|Hs]; [lia|].
  rewrite Nat2Z.id.
  destruct (TestWord_letters_spec lock buf s L 0 L Hlock Hword
              ltac:(lia) HL ltac:(lia)) as [Hv Ht].
  simpl in Hv, Ht. rewrite Nat.add_0_r in Hv. simpl in Hv.
  rewrite (bind_read_Some _ _ _ _ (TestWord_letters_read_only _ _ _ _) Hv).
  simpl. replace (Z.of_nat s + 1) with (Z.of_nat (S s)) by lia.
  change (drop 0 buf) with buf. rewrite filter_cons.
  assert (Hn : (n = 0 \/ S s + n + L <= S (length lock))%nat) by lia.
  destruct (alignedb (drop s lock) (take L buf)) eqn:Hal.
  - rewrite decide_True by (by apply alignedb_matches_at).
    destruct (IH (S s) (to_uint (count + 1)) Hn (to_uint_range _))
      as [Hv' Ht'].
    simpl in Hv', Ht'. split.
    + rewrite Hv', to_uint_add_l. do 2 f_equal. simpl. lia.
    + by apply Forall_app.
  - rewrite decide_False
      by (rewrite <- alignedb_matches_at, Hal; discriminate).
    destruct (IH (S s) count Hn Hc) as [Hv' Ht'].
    simpl in Hv', Ht'. split; [done | by apply Forall_app].
Qed.

Lemma TestWord_run (lock : Lock) (buf : list ascii) (L : nat) (W : Z) :
  lock_of lock W -> (L <= length buf)%nat ->
  Forall (fun c => islower c = true) (take L buf) ->
  Z.of_nat L <= W ->
  let r := TestWord buf (Z.of_nat L) W lock in
  value r = Some (to_int (alignments lock (take L buf))) /\
  Forall (in_bounds W) (trace r).
Proof.
  intros (HW & Hmax & Hlock) HL Hword HLW. unfold TestWord, TestWord_space.
  rewrite to_uint_small by lia.
  replace (Z.to_nat (W - Z.of_nat L + 1)) with (S (length lock - L)) by lia.
  destruct (TestWord_offsets_spec lock buf L (S (length lock - L)) 0 0
              Hlock Hword HL ltac:(lia) ltac:(unfold UINT_MAX; lia))
    as [Hv Ht].
  cbv zeta in Hv, Ht. change (Z.of_nat 0) with 0 in Hv, Ht.
  rewrite (bind_read_Some _ _ _ _ (TestWord_offsets_read_only _ _ _ _ _) Hv).
  simpl. rewrite app_nil_r, to_int_to_uint. rewrite HW in Ht.
  split; [|done]. unfold alignments.
  rewrite length_take, Nat.min_l by lia. done.
Qed.

(** ** TestWord: what it returns, what it reads, what it leaves *)

(** C1: on a lock of W wheels and a lower-case word of length L with
    0 < L <= W, TestWord returns the number of offsets s in 0..W-L at which
    every letter word[j] is on wheel s+j; every such offset is counted. *)
Theorem TestWord_counts_every_alignment
    (lock : Lock) (word : list ascii) (W L : Z) :
  lock_of lock W -> W <= INT_MAX ->
  Z.of_nat (length word) = L -> 0 < L <= W ->
  Forall (fun c => islower c = true) word ->
  value (TestWord word L W lock) =
    Some (Z.of_nat (length (filter (matches_at lock word)
                                   (seq 0 (Z.to_nat (W - L + 1)))))).
Proof.
  intros Hlock Hint HL HLW Hword. subst L.
  destruct (TestWord_run lock word (length word) W Hlock ltac:(lia)
              ltac:(by rewrite take_ge by lia) ltac:(lia)) as [Hv _].
  cbv zeta in Hv. rewrite Hv, take_ge by lia. f_equal.
  unfold alignments. destruct Hlock as (HW & _ & _).
  replace (Z.to_nat (W - Z.of_nat (length word) + 1))
    with (S (length lock - length word)) by lia.
  apply to_int_small. split; [lia|].
  pose proof (length_filter (matches_at lock word)
                (seq 0 (S (length lock - length word)))) as Hf.
  rewrite length_seq in Hf. lia.
Qed.

Lemma TestWord_counts_every_alignment_witness :
  value (TestWord (text "ab") 2 3 lock_ab3) = Some 2.
Proof.
  apply (TestWord_counts_every_alignment lock_ab3 (text "ab") 3 2).
  - split; [reflexivity|]. split; [vm_compute; discriminate|].
    repeat constructor.
  - vm_compute; discriminate.
  - reflexivity.
  - lia.
  - repeat constructor.
Defined.

(** C5: when the word is as long as the lock has wheels, [space] is 0, the
    whole call is the single test at offset 0, and the result is 0 or 1. *)
Theorem TestWord_full_length (lock : Lock) (word : list ascii) (W : Z) :
  lock_of lock W -> Z.of_nat (length word) = W ->
  Forall (fun c => islower c = true) word ->
  TestWord_space W W = 0 /\
  TestWord word W W lock =
    (matched <~ TestWord_letters word 0 (Z.to_nat W) 0 ;;
     ret (if matched : bool then 1 else 0)) lock /\
  (value (TestWord word W W lock) = Some 0 \/
   value (TestWord word W W lock) = Some 1).
Proof.
  intros (HW & Hmax & Hlock) HL Hword.
  assert (Hsp : TestWord_space W W = 0).
  { unfold TestWord_space. by rewrite Z.sub_diag. }
  assert (Hrun : TestWord word W W lock =
    (matched <~ TestWord_letters word 0 (Z.to_nat W) 0 ;;
     ret (if matched : bool then 1 else 0)) lock).
  { unfold TestWord. rewrite Hsp. simpl.
    pose proof (TestWord_letters_read_only word 0 (Z.to_nat W) 0 lock) as Hro.
    unfold bind, ret. simpl. rewrite !Hro.
    destruct (value (TestWord_letters word 0 (Z.to_nat W) 0 lock))
      as [[|]|]; simpl; rewrite ?app_nil_r; reflexivity. }
  split; [done|]. split; [done|].
  rewrite Hrun. unfold bind.
  destruct (value (TestWord_letters word 0 (Z.to_nat W) 0 lock))
    as [[|]|] eqn:Hv; simpl; auto.
  destruct (TestWord_letters_spec lock word 0 (length word) 0 (length word)
              Hlock ltac:(by rewrite take_ge by lia)
              ltac:(lia) ltac:(lia) ltac:(lia)) as [Hv' _].
  cbv zeta in Hv'. change (Z.of_nat 0) with 0 in Hv'.
  rewrite <- HL, Nat2Z.id in Hv. congruence.
Qed.

Lemma TestWord_full_length_witness :
  TestWord_space 3 3 = 0 /\
  TestWord (text "abb") 3 3 lock_ab3 =
    (matched <~ TestWord_letters (text "abb") 0 (Z.to_nat 3) 0 ;;
     ret (if matched : bool then 1 else 0)) lock_ab3 /\
  (value (TestWord (text "abb") 3 3 lock_ab3) = Some 0 \/
   value (TestWord (text "abb") 3 3 lock_ab3) = Some 1).
Proof.
  apply (TestWord_full_length lock_ab3 (text "abb") 3).
  - split; [reflexivity|]. split; [vm_compute; discriminate|].
    repeat constructor.
  - reflexivity.
  - repeat constructor.
Defined.

Lemma bind_value {A B} (m : M A) (f : A -> M B) (h : Lock) :
  value (bind m f h) =
  match value (m h) with
  | Some a => value (f a (heap (m h)))
  | None => None
  end.
Proof. unfold bind. by destruct (value (m h)). Qed.

Lemma call_times_read_only {A} (n : nat) (m : M A) :
  read_only m -> read_only (call_times n m).
Proof.
  intros Hm. induction n as [|n IH]; simpl; [apply read_only_ret|].
  apply read_only_bind; [done|]. intros a.
  apply read_only_bind; [done|]. intros l. apply read_only_ret.
Qed.

Lemma call_times_value {A} (n : nat) (m : M A) (h : Lock) :
  read_only m ->
  value (call_times (S n) m h) = replicate (S n) <$> value (m h).
Proof.
  intros Hm. induction n as [|n IH].
  - simpl. unfold bind. by destruct (value (m h)) as [a|] eqn:Hv.
  - change (call_times (S (S n)) m)
      with (a <~ m ;; l <~ call_times (S n) m ;; ret (a :: l)).
    rewrite bind_value. destruct (value (m h)) as [a|] eqn:Hv; [|done].
    rewrite Hm, bind_value, IH. done.
Qed.

(** C7: TestWord writes nothing: after any number of calls in a row the
    wheel tables are what they were, and every call gives the result of the
    first. *)
Theorem TestWord_pure (word : list ascii) (wordLength wheelCount : Z)
    (lock : Lock) (n : nat) :
  heap (TestWord word wordLength wheelCount lock) = lock /\
  heap (call_times n (TestWord word wordLength wheelCount) lock) = lock /\
  value (call_times (S n) (TestWord word wordLength wheelCount) lock) =
    replicate (S n) <$> value (TestWord word wordLength wheelCount lock).
Proof.
  pose proof (TestWord_read_only word wordLength wheelCount) as Hro.
  split; [apply Hro|]. split.
  - by apply call_times_read_only.
  - by apply call_times_value.
Qed.

(** C10: on a lock of W wheels and a lower-case word of length L <= W,
    every lookup of TestWord reads wheel i+j < W at a letter index in
    0..25, and the call returns a count: no access leaves the tables. *)
Theorem TestWord_in_bounds (lock : Lock) (word : list ascii) (W L : Z) :
  lock_of lock W -> Z.of_nat (length word) = L -> L <= W ->
  Forall (fun c => islower c = true) word ->
  Forall (in_bounds W) (trace (TestWord word L W lock)) /\
  is_Some (value (TestWord word L W lock)).
Proof.
  intros Hlock HL HLW Hword. subst L.
  destruct (TestWord_run lock word (length word) W Hlock ltac:(lia)
              ltac:(by rewrite take_ge by lia) ltac:(lia)) as [Hv Ht].
  cbv zeta in Hv, Ht. split; [done|]. rewrite Hv. by eexists.
Qed.

Lemma TestWord_in_bounds_witness :
  Forall (in_bounds 3) (trace (TestWord (text "ba") 2 3 lock_ab3)) /\
  is_Some (value (TestWord (text "ba") 2 3 lock_ab3)).
Proof.
  apply (TestWord_in_bounds lock_ab3 (text "ba") 3 2).
  - split; [reflexivity|]. split; [vm_compute; discriminate|].
    repeat constructor.
  - reflexivity.
  - lia.
  - repeat constructor.
Defined.

(** ** Reading lines *)

Lemma getline_loop_newline (line tl : list ascii) (count : Z) :
  NL ∉ line -> Z.of_nat (length line) < count ->
  getline_loop (line ++ NL :: tl) count =
  MkExtracted line tl (Z.of_nat (length line) + 1) false false.
Proof.
  revert count. induction line as [|c line IH]; intros count Hnl Hlen; simpl.
  - done.
  - apply not_elem_of_cons in Hnl as [Hc Hnl].
    apply not_eq_sym, Ascii.eqb_neq in Hc. rewrite Hc.
    simpl in Hlen.
    destruct (Z.leb_spec (count - 1) 0) as [|_]; [lia|].
    rewrite IH by (done || lia). simpl. f_equal. lia.
Qed.

Lemma getline_loop_eof (line : list ascii) (count : Z) :
  NL ∉ line -> Z.of_nat (length line) < count ->
  getline_loop line count =
  MkExtracted line [] (Z.of_nat (length line)) true false.
Proof.
  revert count. induction line as [|c line IH]; intros count Hnl Hlen; simpl.
  - done.
  - apply not_elem_of_cons in Hnl as [Hc Hnl].
    apply not_eq_sym, Ascii.eqb_neq in Hc. rewrite Hc.
    simpl in Hlen.
    destruct (Z.leb_spec (count - 1) 0) as [|_]; [lia|].
    rewrite IH by (done || lia). simpl. f_equal. lia.
Qed.

Lemma c_str_no_NUL (line : list ascii) : NUL ∉ c_str line.
Proof.
  induction line as [|c line IH]; simpl; [apply not_elem_of_nil|].
  destruct (Ascii.eqb_spec c NUL) as [->|Hc]; [apply not_elem_of_nil|].
  apply not_elem_of_cons. split; [congruence | done].
Qed.

Lemma strlen_word (w t : list ascii) :
  NUL ∉ w -> strlen (w ++ NUL :: t) = Some (Z.of_nat (length w)).
Proof.
  induction w as [|c w IH]; intros Hw; simpl; [done|].
  apply not_elem_of_cons in Hw as [Hc Hw].
  apply not_eq_sym, Ascii.eqb_neq in Hc. rewrite Hc, IH by done.
  f_equal. lia.
Qed.

Lemma c_str_word (w t : list ascii) : NUL ∉ w -> c_str (w ++ NUL :: t) = w.
Proof.
  induction w as [|c w IH]; intros Hw; simpl; [done|].
  apply not_elem_of_cons in Hw as [Hc Hw].
  apply not_eq_sym, Ascii.eqb_neq in Hc. by rewrite Hc, IH.
Qed.

Lemma normalise_word (w pre t : list ascii) (valid : bool) :
  normalise (length w) (Z.of_nat (length pre)) valid (pre ++ w ++ t) =
  Some (valid && forallb isalpha w, pre ++ map tolower w ++ t).
Proof.
  revert pre valid. induction w as [|c w IH]; intros pre valid; simpl.
  - by rewrite andb_true_r.
  - rewrite Nat2Z.id, list_lookup_middle by done.
    rewrite insert_app_r_alt, Nat.sub_diag by lia. simpl.
    replace (Z.of_nat (length pre) + 1)
      with (Z.of_nat (length (pre ++ [tolower c])))
      by (rewrite length_app; simpl; lia).
    replace (pre ++ tolower c :: w ++ t)
      with ((pre ++ [tolower c]) ++ w ++ t) by (by rewrite <- app_assoc).
    rewrite IH, andb_assoc, <- app_assoc. done.
Qed.

Lemma isalpha_tolower (c : ascii) :
  isalpha c = true -> islower (tolower c) = true.
Proof.
  destruct c as [[] [] [] [] [] [] [] []]; vm_compute; congruence.
Qed.

Lemma isalpha_tolower_not_NUL (c : ascii) :
  isalpha c = true -> tolower c <> NUL.
Proof.
  destruct c as [[] [] [] [] [] [] [] []]; vm_compute; congruence.
Qed.

Lemma getline_whole (line after buf : list ascii) (file' : ifstream)
    (count : Z) :
  NL ∉ line -> Z.of_nat (length line) < count ->
  (exists tl, after = NL :: tl /\ file' = MkStream tl false false) \/
  (after = [] /\ line <> [] /\ file' = MkStream [] false true) ->
  getline (MkStream (line ++ after) false false) buf count =
  (file', line ++ NUL :: drop (S (length line)) buf).
Proof.
  intros Hnl Hlen Hafter. unfold getline. simpl.
  destruct (Z.ltb_spec 0 count) as [_|]; [|lia].
  destruct Hafter as [(tl & -> & ->)|(-> & Hne & ->)].
  - rewrite getline_loop_newline by (done || lia). simpl.
    destruct (Z.eqb_spec (Z.of_nat (length line) + 1) 0); [lia|done].
  - rewrite app_nil_r, getline_loop_eof by (done || lia). simpl.
    destruct (Z.eqb_spec (Z.of_nat (length line)) 0) as [H0|]; [|done].
    destruct line; [done | simpl in H0; lia].
Qed.

Lemma getline_line (line after buf : list ascii) (file' : ifstream) :
  line_ok line ->
  (exists tl, after = NL :: tl /\ file' = MkStream tl false false) \/
  (after = [] /\ line <> [] /\ file' = MkStream [] false true) ->
  getline (MkStream (line ++ after) false false) buf (MAXWORDLENGTH + 1) =
  (file', line ++ NUL :: drop (S (length line)) buf).
Proof.
  intros [Hnl Hlen] Hafter. apply getline_whole; [done | lia | done].
Qed.

Lemma c_str_length (line : list ascii) :
  (length (c_str line) <= length line)%nat.
Proof.
  induction line as [|c line IH]; simpl; [lia|].
  destruct (Ascii.eqb c NUL); simpl; lia.
Qed.

Lemma alignments_range (lock : Lock) (word : list ascii) :
  0 <= alignments lock word <= Z.of_nat (length lock) + 1.
Proof.
  unfold alignments.
  pose proof (length_filter (matches_at lock word)
                (seq 0 (S (length lock - length word)))) as Hf.
  rewrite length_seq in Hf. lia.
Qed.

Lemma printed_one (lock : Lock) (W : Z) (line : list ascii) :
  printed lock W [line] =
  if 0 <? line_matches lock W line then [OutWord (line_word line)] else [].
Proof.
  unfold printed. rewrite filter_cons, filter_nil.
  destruct (Z.ltb_spec 0 (line_matches lock W line)).
  - by rewrite decide_True.
  - by rewrite decide_False by lia.
Qed.

Lemma tested_one (W : Z) (line : list ascii) :
  tested W [line] = if line_tested W line then [line_word line] else [].
Proof.
  unfold tested. rewrite filter_cons, filter_nil.
  destruct (line_tested W line); [by rewrite decide_True|].
  by rewrite decide_False.
Qed.

(** ** One iteration of the dictionary loop *)

Lemma line_buffer_drop (line rest' : list ascii) :
  line ++ NUL :: rest' =
  c_str line ++ NUL :: drop (S (length (c_str line))) (line ++ NUL :: rest').
Proof.
  induction line as [|c line IH]; simpl; [done|].
  destruct (Ascii.eqb_spec c NUL) as [->|Hc]; simpl; [done|].
  by rewrite <- IH.
Qed.

(** The first half of the body on a line that [getline] delivers whole. *)
Lemma ProcessDictionary_step_read (W : Z) (st : Scan)
    (line after : list ascii) (file' : ifstream) :
  line_ok line ->
  sc_file st = MkStream (line ++ after) false false ->
  (exists tl, after = NL :: tl /\ file' = MkStream tl false false) \/
  (after = [] /\ line <> [] /\ file' = MkStream [] false true) ->
  ProcessDictionary_step W st =
  ProcessDictionary_test W
    (MkScan file'
       (line_word line ++
        NUL :: drop (S (length (c_str line)))
                 (line ++ NUL :: drop (S (length line)) (sc_word st)))
       (sc_count st) (sc_wheels st) (sc_out st) (sc_calls st))
    (Z.of_nat (length (c_str line))) (forallb isalpha (c_str line)).
Proof.
  intros Hok Hfile Hafter. unfold ProcessDictionary_step, line_word.
  rewrite Hfile, (getline_line line after _ file' Hok Hafter).
  assert (Hfail : fail file' = false).
  { by destruct Hafter as [(tl & _ & ->)|(_ & _ & ->)]. }
  rewrite Hfail. cbn [sc_count sc_wheels sc_out sc_calls].
  set (buf := line ++ NUL :: drop (S (length line)) (sc_word st)).
  pose proof (line_buffer_drop line (drop (S (length line)) (sc_word st)))
    as Hb. fold buf in Hb.
  pose proof (c_str_length line) as Hcl.
  assert (HwL : Z.of_nat (length (c_str line)) <= 255).
  { destruct Hok as [_ Hl]. unfold MAXWORDLENGTH in Hl. lia. }
  assert (Hs : strlen buf = Some (Z.of_nat (length (c_str line)))).
  { rewrite Hb. apply strlen_word, c_str_no_NUL. }
  rewrite Hs, to_uint_small by (unfold UINT_MAX; lia).
  rewrite Nat2Z.id.
  assert (Hn : normalise (length (c_str line)) 0 true buf =
               Some (forallb isalpha (c_str line),
                     map tolower (c_str line) ++
                     NUL :: drop (S (length (c_str line))) buf)).
  { rewrite Hb at 1. apply (normalise_word (c_str line) [] _ true). }
  by rewrite Hn.
Qed.

Lemma ProcessDictionary_step_line (W : Z) (lock : Lock) (st : Scan)
    (line after : list ascii) (file' : ifstream) :
  lock_of lock W -> W <= INT_MAX -> line_ok line ->
  length (sc_word st) = 256%nat -> sc_wheels st = lock ->
  0 <= sc_count st <= UINT_MAX ->
  sc_file st = MkStream (line ++ after) false false ->
  (exists tl, after = NL :: tl /\ file' = MkStream tl false false) \/
  (after = [] /\ line <> [] /\ file' = MkStream [] false true) ->
  exists word', length word' = 256%nat /\
    ProcessDictionary_step W st = inl (scan_line lock W line file' word' st).
Proof.
  intros Hlock Hint Hok Hbuf Hwheels Hcount Hfile Hafter.
  rewrite (ProcessDictionary_step_read W st line after file' Hok Hfile Hafter).
  unfold ProcessDictionary_test, scan_line.
  cbn [sc_file sc_word sc_count sc_wheels sc_out sc_calls].
  set (t := drop (S (length (c_str line)))
              (line ++ NUL :: drop (S (length line)) (sc_word st))).
  assert (Hlen256 : length (c_str line ++ NUL :: t) = 256%nat).
  { unfold t. rewrite <- line_buffer_drop, length_app. simpl.
    rewrite length_drop, Hbuf.
    destruct Hok as [_ Hl]. unfold MAXWORDLENGTH in Hl. lia. }
  pose proof (c_str_length line) as Hcl.
  rewrite printed_one, tested_one.
  unfold line_matches, line_tested, line_word.
  set (w := c_str line) in *.
  exists (map tolower w ++ NUL :: t). split.
  { rewrite length_app, length_map. rewrite length_app in Hlen256. done. }
  destruct (forallb isalpha w) eqn:Halpha; simpl.
  2: { rewrite Z.add_0_r, to_uint_small, !app_nil_r by done.
       by rewrite Hwheels. }
  destruct (Z.ltb_spec W (Z.of_nat (length w))) as [Hlong|Hfit].
  { destruct (Z.leb_spec (Z.of_nat (length w)) W) as [|_]; [lia|].
    simpl. rewrite Z.add_0_r, to_uint_small, !app_nil_r by done.
    by rewrite Hwheels. }
  destruct (Z.leb_spec (Z.of_nat (length w)) W) as [_|]; [|lia].
  assert (Hlower : Forall (fun c => islower c = true) (map tolower w)).
  { apply Forall_forall. intros c Hc.
    apply list_elem_of_fmap in Hc as (c0 & -> & Hc0).
    apply isalpha_tolower.
    apply (proj1 (forallb_forall _ _) Halpha), list_elem_of_In, Hc0. }
  assert (Htake : take (length w) (map tolower w ++ NUL :: t) = map tolower w).
  { rewrite take_app_length'; [done | by rewrite length_map]. }
  destruct (TestWord_run lock (map tolower w ++ NUL :: t) (length w) W
              Hlock) as [Hv _].
  { rewrite length_app, length_map. lia. }
  { by rewrite Htake. }
  { done. }
  cbv zeta in Hv. rewrite Htake in Hv.
  pose proof (TestWord_read_only (map tolower w ++ NUL :: t)
                (Z.of_nat (length w)) W lock) as Hro.
  rewrite Hwheels, Hv, !Hro.
  assert (Hnul' : NUL ∉ map tolower w).
  { intros Hin. apply list_elem_of_fmap in Hin as (c0 & Hc0 & Hin).
    symmetry in Hc0. revert Hc0. apply isalpha_tolower_not_NUL.
    apply (proj1 (forallb_forall _ _) Halpha), list_elem_of_In, Hin. }
  rewrite (c_str_word _ t Hnul').
  pose proof (alignments_range lock (map tolower w)) as Hal.
  destruct Hlock as (HW & _ & _).
  rewrite to_uint_to_int, (to_uint_small (alignments _ _))
    by (unfold UINT_MAX, INT_MAX in *; lia).
  destruct (Z.ltb_spec 0 (alignments lock (map tolower w))) as [Hpos|Hzero].
  - done.
  - replace (alignments lock (map tolower w)) with 0 by lia.
    by rewrite Z.add_0_r, to_uint_small, app_nil_r.
Qed.

(** ** The whole dictionary *)

Lemma unlines_cons (l : list ascii) (ls : list (list ascii)) :
  ls <> [] -> unlines (l :: ls) = l ++ NL :: unlines ls.
Proof. by destruct ls. Qed.

Lemma unlines_length (front : list (list ascii)) (l : list ascii) :
  (length front <= length (unlines (front ++ [l])))%nat.
Proof.
  induction front as [|l1 front IH]; [simpl; lia|].
  change ((l1 :: front) ++ [l]) with (l1 :: (front ++ [l])).
  rewrite unlines_cons by (by destruct front).
  rewrite length_app. simpl. lia.
Qed.

Lemma printed_cons (lock : Lock) (W : Z) (l : list ascii) ls :
  printed lock W (l :: ls) = printed lock W [l] ++ printed lock W ls.
Proof.
  unfold printed. rewrite <- fmap_app. f_equal.
  by rewrite <- filter_app.
Qed.

Lemma tested_cons (W : Z) (l : list ascii) ls :
  tested W (l :: ls) = tested W [l] ++ tested W ls.
Proof.
  unfold tested. rewrite <- fmap_app. f_equal.
  by rewrite <- filter_app.
Qed.

Lemma ProcessDictionary_loop_lines (W : Z) (lock : Lock)
    (front : list (list ascii)) (l : list ascii) :
  lock_of lock W -> W <= INT_MAX ->
  Forall line_ok (front ++ [l]) -> l <> [] ->
  forall (fuel : nat) (st : Scan),
  (length front < fuel)%nat ->
  length (sc_word st) = 256%nat -> sc_wheels st = lock ->
  0 <= sc_count st <= UINT_MAX ->
  sc_file st = MkStream (unlines (front ++ [l])) false false ->
  exists word',
    ProcessDictionary_loop fuel W st =
    Some (inl (MkScan (MkStream [] false true) word'
                 (to_uint (sc_count st + total lock W (front ++ [l]))) lock
                 (sc_out st ++ printed lock W (front ++ [l]))
                 (sc_calls st ++ tested W (front ++ [l])))).
Proof.
  intros Hlock Hint Hok Hne.
  induction front as [|l1 front IH];
    intros fuel st Hfuel Hbuf Hwheels Hcount Hfile.
  - destruct fuel as [|fuel]; [simpl in Hfuel; lia|].
    simpl in Hok, Hfile. rewrite Forall_singleton in Hok.
    rewrite <- (app_nil_r l) in Hfile.
    destruct (ProcessDictionary_step_line W lock st l [] (MkStream [] false true)
                Hlock Hint Hok Hbuf Hwheels Hcount Hfile)
      as (word' & Hlen & Hstep); [by right|].
    exists word'. simpl. rewrite Hfile. simpl. rewrite Hstep.
    unfold scan_line, total. simpl. rewrite Z.add_0_r.
    by destruct fuel.
  - destruct fuel as [|fuel]; [simpl in Hfuel; lia|].
    change ((l1 :: front) ++ [l]) with (l1 :: (front ++ [l])) in *.
    apply Forall_cons in Hok as [Hok1 Hok].
    rewrite unlines_cons in Hfile by (by destruct front).
    destruct (ProcessDictionary_step_line W lock st l1
                (NL :: unlines (front ++ [l]))
                (MkStream (unlines (front ++ [l])) false false)
                Hlock Hint Hok1 Hbuf Hwheels Hcount Hfile)
      as (word1 & Hlen1 & Hstep); [left; by eexists|].
    destruct (IH Hok fuel
                (scan_line lock W l1
                   (MkStream (unlines (front ++ [l])) false false) word1 st))
      as (word' & Hloop);
      [simpl in Hfuel; lia | done | done | apply to_uint_range | done |].
    exists word'. simpl. rewrite Hfile. simpl. rewrite Hstep, Hloop.
    unfold scan_line. simpl.
    rewrite to_uint_add_l.
    rewrite (printed_cons lock W l1 (front ++ [l])).
    rewrite (tested_cons W l1 (front ++ [l])).
    change (total lock W (l1 :: front ++ [l]))
      with (line_matches lock W l1 + total lock W (front ++ [l])).
    rewrite <- !app_assoc, Z.add_assoc. done.
Qed.

Lemma ProcessDictionary_lines (W lettersPerWheel : Z) (lock : Lock)
    (ls : list (list ascii)) :
  lock_of lock W -> W <= INT_MAX -> dictionary_lines ls ->
  exists st,
    ProcessDictionary (Some (unlines ls)) lock W lettersPerWheel =
      Some (st, Fault) /\
    sc_out st = printed lock W ls ++ [OutFound (to_uint (total lock W ls))] /\
    sc_wheels st = lock /\
    sc_calls st = tested W ls.
Proof.
  intros Hlock Hint (Hok & front & l & -> & Hne).
  unfold ProcessDictionary, open, good.
  cbn [failbit eofbit negb andb rest].
  destruct (ProcessDictionary_loop_lines W lock front l Hlock Hint Hok Hne
              (S (length (unlines (front ++ [l]))))
              (MkScan (MkStream (unlines (front ++ [l])) false false)
                      (replicate (Z.to_nat (MAXWORDLENGTH + 1)) NUL)
                      0 lock [] []))
    as (word' & Hloop).
  - pose proof (unlines_length front l). lia.
  - reflexivity.
  - done.
  - simpl. unfold UINT_MAX. lia.
  - done.
  - rewrite Hloop. eexists. split; [done|]. simpl. done.
Qed.

Lemma total_nonneg (lock : Lock) (W : Z) (ls : list (list ascii)) :
  0 <= total lock W ls.
Proof.
  unfold total. induction ls as [|l ls IH]; simpl; [lia|].
  assert (0 <= line_matches lock W l); [|lia].
  unfold line_matches. destruct (line_tested W l); [|lia].
  apply alignments_range.
Qed.

Lemma word_matches_nonempty (lock : Lock) (W : Z) (line : list ascii) :
  c_str line <> [] -> word_matches lock W line = line_matches lock W line.
Proof.
  intros Hne. unfold word_matches, line_matches, line_tested, is_word.
  by destruct (c_str line).
Qed.

Lemma word_matches_nonneg (lock : Lock) (W : Z) (line : list ascii) :
  0 <= word_matches lock W line.
Proof.
  unfold word_matches. destruct (_ && _); [apply alignments_range | lia].
Qed.

Lemma words_total_nonneg (lock : Lock) (W : Z) (ls : list (list ascii)) :
  0 <= words_total lock W ls.
Proof.
  unfold words_total. induction ls as [|l ls IH]; simpl; [lia|].
  pose proof (word_matches_nonneg lock W l). lia.
Qed.

Lemma words_total_nonempty (lock : Lock) (W : Z) (ls : list (list ascii)) :
  Forall (fun l => c_str l <> []) ls ->
  words_total lock W ls = total lock W ls /\
  words_printed lock W ls = printed lock W ls.
Proof.
  unfold words_total, total, words_printed, printed.
  induction 1 as [|l ls Hl _ [IHt IHp]]; [done|].
  cbn [map foldr]. rewrite !filter_cons, (word_matches_nonempty _ _ _ Hl), IHt.
  split; [done|].
  destruct (decide (0 < line_matches lock W l)); cbn [map]; by rewrite IHp.
Qed.

(** What [ProcessDictionary] has printed when it reaches its end, on a
    dictionary of non-empty lines. *)
Lemma ProcessDictionary_words (W lettersPerWheel : Z) (lock : Lock)
    (ls : list (list ascii)) :
  lock_of lock W -> W <= INT_MAX -> dictionary_lines ls ->
  Forall (fun l => c_str l <> []) ls ->
  exists st,
    ProcessDictionary (Some (unlines ls)) lock W lettersPerWheel =
      Some (st, Fault) /\
    sc_out st = words_printed lock W ls ++
                [OutFound (to_uint (words_total lock W ls))].
Proof.
  intros Hlock Hint Hls Hne.
  destruct (ProcessDictionary_lines W lettersPerWheel lock ls Hlock Hint Hls)
    as (st & Hrun & Hout & _).
  destruct (words_total_nonempty lock W ls Hne) as [-> ->].
  by exists st.
Qed.


Ltac solve_line_ok :=
  split; [apply (bool_decide_unpack _); vm_compute; exact I
         | vm_compute; discriminate].

Ltac solve_lock_of :=
  split; [reflexivity|]; split; [vm_compute; discriminate|];
  repeat constructor.


(** The run of scenario A from the two files: after the total the run is
    past the end of [ProcessDictionary], and [main] has no defined output. *)
Example main_scenario_A :
  main (Some (unlines [text "3"; text "2"; text "ab"; text "ab"; text "ab"]))
       (Some (unlines [text "ab"; text "abc"; text "ba"])) = None.
Proof. vm_compute. reflexivity. Qed.

(** A dictionary that ends with a newline: the read after the last line
    finds the end of the file, and the call throws before the total. *)
Example main_final_newline :
  main (Some (unlines [text "3"; text "2"; text "ab"; text "ab"; text "ab"]))
       (Some (unlines [text "ab"; text "abc"; text "ba"; []])) =
  Some [OutWord (text "ab"); OutWord (text "ba");
        OutError ErrWordTooLong; OutPrompt].
Proof. vm_compute. reflexivity. Qed.

(** C4: a dictionary word longer than the lock has wheels is skipped: the
    iteration goes on to the next line with the count, the console, the
    wheel tables and the record of TestWord calls as they were. *)
Theorem ProcessDictionary_skips_long_word (W : Z) (st : Scan)
    (line after : list ascii) (file' : ifstream) :
  line_ok line ->
  sc_file st = MkStream (line ++ after) false false ->
  (exists tl, after = NL :: tl /\ file' = MkStream tl false false) \/
  (after = [] /\ line <> [] /\ file' = MkStream [] false true) ->
  W < Z.of_nat (length (c_str line)) ->
  exists st',
    ProcessDictionary_step W st = inl st' /\
    sc_file st' = file' /\
    sc_count st' = sc_count st /\ sc_out st' = sc_out st /\
    sc_calls st' = sc_calls st /\ sc_wheels st' = sc_wheels st.
Proof.
  intros Hok Hfile Hafter Hlong.
  rewrite (ProcessDictionary_step_read W st line after file' Hok Hfile Hafter).
  unfold ProcessDictionary_test.
  destruct (Z.ltb_spec W (Z.of_nat (length (c_str line)))) as [_|]; [|lia].
  destruct (negb (forallb isalpha (c_str line))); eexists; split; done.
Qed.

Lemma ProcessDictionary_skips_long_word_witness :
  exists st',
    ProcessDictionary_step 2
      (scan_start (text "abc" ++ NL :: text "ba") lock_ab3) = inl st' /\
    sc_file st' = MkStream (text "ba") false false /\
    sc_count st' = 0 /\ sc_out st' = [] /\
    sc_calls st' = [] /\ sc_wheels st' = lock_ab3.
Proof.
  apply (ProcessDictionary_skips_long_word 2
           (scan_start (text "abc" ++ NL :: text "ba") lock_ab3)
           (text "abc") (NL :: text "ba") (MkStream (text "ba") false false)).
  - solve_line_ok.
  - reflexivity.
  - left. by eexists.
  - vm_compute. reflexivity.
Defined.

(** ** Upper and lower case *)

Lemma isalpha_toupper (c : ascii) : isalpha (toupper c) = isalpha c.
Proof. destruct c as [[] [] [] [] [] [] [] []]; reflexivity. Qed.

Lemma tolower_toupper (c : ascii) : tolower (toupper c) = tolower c.
Proof. destruct c as [[] [] [] [] [] [] [] []]; reflexivity. Qed.

Lemma isalpha_not_NUL_NL (c : ascii) :
  isalpha c = true -> c <> NUL /\ c <> NL.
Proof.
  destruct c as [[] [] [] [] [] [] [] []]; vm_compute; split; congruence.
Qed.

Lemma c_str_id (l : list ascii) : NUL ∉ l -> c_str l = l.
Proof.
  induction l as [|c l IH]; intros Hl; simpl; [done|].
  apply not_elem_of_cons in Hl as [Hc Hl].
  apply not_eq_sym, Ascii.eqb_neq in Hc. by rewrite Hc, IH.
Qed.

Lemma alphabetic_line (line : list ascii) :
  Forall (fun c => isalpha c = true) line ->
  (NUL ∉ line) /\ (NL ∉ line).
Proof.
  induction 1 as [|c line Hc _ [IH1 IH2]];
    [split; apply not_elem_of_nil|].
  apply isalpha_not_NUL_NL in Hc as [Hc1 Hc2].
  split; apply not_elem_of_cons; split; congruence || done.
Qed.

Lemma forallb_isalpha_toupper (l : list ascii) :
  forallb isalpha (map toupper l) = forallb isalpha l.
Proof.
  induction l as [|c l IH]; simpl; [done|].
  by rewrite isalpha_toupper, IH.
Qed.

Lemma toupper_alphabetic (line : list ascii) :
  Forall (fun c => isalpha c = true) line ->
  Forall (fun c => isalpha c = true) (map toupper line).
Proof.
  intros H. apply Forall_fmap. eapply Forall_impl; [exact H|].
  intros c Hc. simpl. by rewrite isalpha_toupper.
Qed.

(** C6: matching does not depend on the case of the dictionary word: the
    iteration of the loop on an alphabetic line and the iteration on the
    same line in upper case end in the same state (same count, same word
    printed, same word handed to TestWord), because the word is lowered
    before it is tested. *)
Theorem ProcessDictionary_case_insensitive (W : Z) (st : Scan)
    (line after : list ascii) :
  Forall (fun c => isalpha c = true) line ->
  Z.of_nat (length line) <= MAXWORDLENGTH ->
  (exists tl, after = NL :: tl) \/ (after = [] /\ line <> []) ->
  ProcessDictionary_step W (scan_at (map toupper line ++ after) st) =
  ProcessDictionary_step W (scan_at (line ++ after) st).
Proof.
  intros Halpha Hlen Hafter.
  pose proof (toupper_alphabetic line Halpha) as Hupper.
  destruct (alphabetic_line line Halpha) as [Hnul Hnl].
  destruct (alphabetic_line _ Hupper) as [Hnul' Hnl'].
  set (file' := match after with
                | [] => MkStream [] false true
                | _ :: tl => MkStream tl false false
                end).
  assert (Hend : forall l : list ascii, length l = length line ->
            (exists tl, after = NL :: tl /\ file' = MkStream tl false false) \/
            (after = [] /\ l <> [] /\ file' = MkStream [] false true)).
  { intros l Hl. destruct Hafter as [[tl ->]|[-> Hne]].
    - left. by eexists.
    - right. split; [done|]. split; [|done].
      intros ->. destruct line; [done | discriminate]. }
  rewrite (ProcessDictionary_step_read W _ (map toupper line) after file');
    [| split; [done | by rewrite length_map] | done
     | apply Hend; by rewrite length_map ].
  rewrite (ProcessDictionary_step_read W _ line after file');
    [| by split | done | by apply Hend ].
  unfold line_word, scan_at.
  cbn [sc_file sc_word sc_count sc_wheels sc_out sc_calls].
  rewrite (c_str_id _ Hnul), (c_str_id _ Hnul').
  rewrite !length_map.
  rewrite (cons_middle NUL line), (cons_middle NUL (map toupper line)).
  rewrite !app_assoc.
  rewrite !drop_app_length' by (rewrite length_app, ?length_map; simpl; lia).
  rewrite map_map, (map_ext _ _ tolower_toupper).
  by rewrite forallb_isalpha_toupper.
Qed.

Lemma ProcessDictionary_case_insensitive_witness :
  ProcessDictionary_step 3
    (scan_at (map toupper (text "ab") ++ NL :: text "ba")
             (scan_start [] lock_ab3)) =
  ProcessDictionary_step 3
    (scan_at (text "ab" ++ NL :: text "ba") (scan_start [] lock_ab3)).
Proof.
  apply (ProcessDictionary_case_insensitive 3 (scan_start [] lock_ab3)
           (text "ab") (NL :: text "ba")).
  - repeat constructor.
  - vm_compute; discriminate.
  - left. by eexists.
Defined.

(** TestWord itself does not fold case: on a word in upper case the letter
    index is negative and the read leaves the table. *)
Example TestWord_upper_case_faults :
  value (TestWord (text "AB") 2 3 lock_ab3) = None.
Proof. reflexivity. Qed.

(** ** Empty lines *)

(** C2 (what the code does instead): an empty dictionary line is not
    rejected.  On the lock of scenario A and the dictionary ab, (empty),
    ba the empty word is handed to TestWord, which counts all 4 offsets;
    the empty word is printed and the total is 8, not 4. *)
Theorem ProcessDictionary_tests_empty_line :
  match ProcessDictionary (Some (unlines [text "ab"; []; text "ba"]))
                          lock_ab3 3 2 with
  | Some (st, Fault) =>
      sc_calls st = [text "ab"; []; text "ba"] /\
      sc_out st = [OutWord (text "ab"); OutWord []; OutWord (text "ba");
                   OutFound 8]
  | _ => False
  end.
Proof. vm_compute. split; reflexivity. Qed.

Lemma filter_all {A} (P : A -> Prop) `{!forall x, Decision (P x)}
    (l : list A) :
  Forall P l -> filter P l = l.
Proof.
  induction 1 as [|x l Hx _ IH]; [done|].
  by rewrite filter_cons_True, IH.
Qed.

(** The same on every lock: an empty line in front of a newline is handed
    to TestWord, printed, and adds one more than the wheel count. *)
Lemma ProcessDictionary_step_empty_line (W : Z) (lock : Lock) (st : Scan)
    (tl : list ascii) :
  lock_of lock W -> W <= INT_MAX ->
  length (sc_word st) = 256%nat -> sc_wheels st = lock ->
  0 <= sc_count st <= UINT_MAX ->
  sc_file st = MkStream (NL :: tl) false false ->
  exists word',
    ProcessDictionary_step W st =
    inl (MkScan (MkStream tl false false) word'
                (to_uint (sc_count st + (W + 1))) lock
                (sc_out st ++ [OutWord []]) (sc_calls st ++ [[]])).
Proof.
  intros Hlock Hint Hbuf Hwheels Hcount Hfile.
  destruct (ProcessDictionary_step_line W lock st [] (NL :: tl)
              (MkStream tl false false) Hlock Hint)
    as (word' & _ & Hstep); try done.
  { split; [apply not_elem_of_nil | vm_compute; discriminate]. }
  { left. by eexists. }
  exists word'. rewrite Hstep. unfold scan_line.
  rewrite printed_one, tested_one.
  destruct Hlock as (HW & _ & _).
  assert (Htested : line_tested W [] = true).
  { unfold line_tested. simpl. apply Z.leb_le. lia. }
  assert (Hall : line_matches lock W [] = W + 1).
  { unfold line_matches. rewrite Htested.
    unfold alignments, line_word. simpl.
    rewrite filter_all.
    - rewrite Nat.sub_0_r. simpl. rewrite length_seq. lia.
    - apply Forall_forall. intros s _ j c Hj. by destruct j. }
  rewrite Hall, Htested.
  destruct (Z.ltb_spec 0 (W + 1)) as [_|]; [|lia]. done.
Qed.

(** ** Building the lock *)

Lemma set_letters_length (line : list ascii) (w : Wheel) :
  length (set_letters line w) = length w.
Proof.
  unfold set_letters. revert w.
  induction line as [|c line IH]; intros w; cbn [foldl]; [done|].
  by rewrite IH, length_insert.
Qed.

Lemma tables_ok_alter (line : list ascii) (i : nat) (wheels : Lock) :
  tables_ok wheels -> tables_ok (alter (set_letters line) i wheels).
Proof.
  intros H. apply Forall_alter; [done|].
  intros w _ Hw. by rewrite set_letters_length.
Qed.

Lemma isalpha_index (c : ascii) :
  isalpha c = true -> 0 <= alphabetindex (tolower c) < ALPHABETLENGTH.
Proof. intros H. by apply islower_alphabetindex, isalpha_tolower. Qed.

Lemma store_in_range (wheels : Lock) (i : nat) (k : Z) (b : bool) :
  (i < length wheels)%nat -> tables_ok wheels ->
  0 <= k < ALPHABETLENGTH ->
  store (Z.of_nat i) k b wheels =
  MkRun (Some tt) (alter (fun w => <[Z.to_nat k := b]> w) i wheels)
        [MkAccess (Z.of_nat i) k].
Proof.
  intros Hi Hok Hk. unfold store, cell.
  replace (0 <=? Z.of_nat i) with true by (symmetry; apply Z.leb_le; lia).
  replace (0 <=? k) with true by (symmetry; apply Z.leb_le; lia).
  simpl. rewrite Nat2Z.id.
  destruct (lookup_lt_is_Some_2 wheels i Hi) as [w Hw]. rewrite Hw.
  pose proof (proj1 (Forall_lookup _ _) Hok _ _ Hw) as Hlen. simpl in Hlen.
  destruct (lookup_lt_is_Some_2 w (Z.to_nat k)) as [b' Hb'];
    [unfold ALPHABETLENGTH in *; lia|].
  by rewrite Hb'.
Qed.

(** The inner loop over a stretch of alphabetic characters. *)
Lemma ReadWheelFile_letters_prefix (pre post seen : list ascii) (i m : nat)
    (wheels : Lock) :
  Forall (fun c => isalpha c = true) pre ->
  (i < length wheels)%nat -> tables_ok wheels ->
  ReadWheelFile_letters (seen ++ pre ++ post) (Z.of_nat i)
    (length pre + m) (Z.of_nat (length seen)) wheels =
  ReadWheelFile_letters (seen ++ pre ++ post) (Z.of_nat i)
    m (Z.of_nat (length seen + length pre))
    (alter (set_letters pre) i wheels).
Proof.
  intros Hpre. revert seen wheels.
  induction Hpre as [|c pre Hc _ IH]; intros seen wheels Hi Hok.
  - simpl. rewrite Nat.add_0_r.
    by rewrite (list_alter_id (set_letters [])).
  - cbn [length Nat.add ReadWheelFile_letters].
    change ((c :: pre) ++ post) with (c :: (pre ++ post)).
    rewrite Nat2Z.id, list_lookup_middle by done.
    rewrite Hc. cbn [negb].
    rewrite (store_in_range _ _ _ _ Hi Hok (isalpha_index _ Hc)).
    cbn [value heap].
    replace (Z.of_nat (length seen) + 1)
      with (Z.of_nat (length (seen ++ [c])))
      by (rewrite length_app; simpl; lia).
    replace (seen ++ c :: pre ++ post) with ((seen ++ [c]) ++ pre ++ post)
      by (by rewrite <- app_assoc).
    rewrite IH.
    + rewrite list_alter_alter_eq. do 2 f_equal.
      rewrite length_app. simpl. lia.
    + by rewrite length_alter.
    + apply Forall_alter; [done|]. intros w _ Hw.
      by rewrite length_insert.
Qed.

(** A whole line of [n] alphabetic characters sets its letters. *)
Lemma ReadWheelFile_letters_line (line post : list ascii) (i : nat)
    (wheels : Lock) :
  Forall (fun c => isalpha c = true) line ->
  (i < length wheels)%nat -> tables_ok wheels ->
  ReadWheelFile_letters (line ++ post) (Z.of_nat i) (length line) 0 wheels =
  Ok (alter (set_letters line) i wheels).
Proof.
  intros Hline Hi Hok.
  pose proof (ReadWheelFile_letters_prefix line post [] i 0 wheels
                Hline Hi Hok) as H.
  rewrite Nat.add_0_r in H. cbn [app length Nat.add] in H.
  change (Z.of_nat 0) with 0 in H. by rewrite H.
Qed.

(** A line that stops being alphabetic at [c], before [n] characters. *)
Lemma ReadWheelFile_letters_stop (pre post : list ascii) (c : ascii)
    (i m : nat) (wheels : Lock) :
  Forall (fun c => isalpha c = true) pre -> isalpha c = false ->
  (i < length wheels)%nat -> tables_ok wheels ->
  ReadWheelFile_letters (pre ++ c :: post) (Z.of_nat i)
    (length pre + S m) 0 wheels =
  Throw (if Ascii.eqb c NUL then ErrInsufficientLetters
         else ErrNonAlphabetical).
Proof.
  intros Hpre Hc Hi Hok.
  pose proof (ReadWheelFile_letters_prefix pre (c :: post) [] i (S m) wheels
                Hpre Hi Hok) as H.
  cbn [app length Nat.add] in H. change (Z.of_nat 0) with 0 in H.
  rewrite H. cbn [ReadWheelFile_letters].
  rewrite Nat2Z.id, list_lookup_middle by done.
  rewrite Hc. cbn [negb]. by destruct (Ascii.eqb c NUL).
Qed.

Lemma fill_length (ls : list (list ascii)) (i : nat) (wheels : Lock) :
  length (fill i ls wheels) = length wheels.
Proof.
  revert i wheels. induction ls as [|l ls IH]; intros i wheels; simpl;
    [done|]. by rewrite IH, length_alter.
Qed.

Lemma fill_tables_ok (ls : list (list ascii)) (i : nat) (wheels : Lock) :
  tables_ok wheels -> tables_ok (fill i ls wheels).
Proof.
  revert i wheels. induction ls as [|l ls IH]; intros i wheels Hok; simpl;
    [done|]. by apply IH, tables_ok_alter.
Qed.

Lemma fill_lookup_lt (ls : list (list ascii)) (i j : nat) (wheels : Lock) :
  (j < i)%nat -> fill i ls wheels !! j = wheels !! j.
Proof.
  revert i wheels. induction ls as [|l ls IH]; intros i wheels Hj; simpl;
    [done|]. rewrite IH by lia. apply list_lookup_alter_ne. lia.
Qed.

Lemma fill_lookup (ls : list (list ascii)) (i p : nat) (wheels : Lock)
    (line : list ascii) :
  ls !! p = Some line ->
  fill i ls wheels !! (i + p)%nat = set_letters line <$> wheels !! (i + p)%nat.
Proof.
  revert i p wheels. induction ls as [|l ls IH]; intros i p wheels Hp;
    [done|]. destruct p as [|p]; simpl in Hp |- *.
  - inversion Hp; subst. rewrite Nat.add_0_r, fill_lookup_lt by lia.
    apply list_lookup_alter_eq.
  - replace (i + S p)%nat with (S i + p)%nat by lia.
    rewrite (IH _ _ _ Hp). f_equal. apply list_lookup_alter_ne. lia.
Qed.

Lemma fill_app (good : list (list ascii)) (last : list ascii) (i : nat)
    (wheels : Lock) :
  fill i (good ++ [last]) wheels =
  alter (set_letters last) (i + length good)%nat (fill i good wheels).
Proof.
  revert i wheels. induction good as [|l good IH]; intros i wheels; simpl.
  - by rewrite Nat.add_0_r.
  - rewrite IH. f_equal. lia.
Qed.

Lemma unlines_closed (good : list (list ascii)) (last : list ascii) :
  unlines (good ++ [last]) = closed_lines good ++ last.
Proof.
  induction good as [|l good IH]; [done|].
  change ((l :: good) ++ [last]) with (l :: (good ++ [last])).
  rewrite unlines_cons by (by destruct good).
  simpl. by rewrite IH, <- app_assoc.
Qed.

(** One iteration of the outer loop on a line of [n] letters. *)
Lemma ReadWheelFile_wheels_line (n : Z) (line after : list ascii)
    (file' : ifstream) (m i : nat) (letters : list ascii) (wheels : Lock) :
  0 < n < UINT_MAX -> wheel_line n line ->
  (i < length wheels)%nat -> tables_ok wheels ->
  (exists tl, after = NL :: tl /\ file' = MkStream tl false false) \/
  (after = [] /\ file' = MkStream [] false true) ->
  ReadWheelFile_wheels n (S m) (Z.of_nat i)
    (MkStream (line ++ after) false false) letters wheels =
  ReadWheelFile_wheels n m (Z.of_nat (S i)) file'
    (line ++ NUL :: drop (S (length line)) letters)
    (alter (set_letters line) i wheels).
Proof.
  intros Hn [Hlen Halpha] Hi Hok Hafter.
  cbn [ReadWheelFile_wheels].
  rewrite to_uint_small by lia.
  destruct (alphabetic_line line Halpha) as [_ Hnl].
  rewrite (getline_whole line after letters file' (n + 1) Hnl);
    [|lia|].
  2: { destruct Hafter as [H|[-> ->]]; [by left|right].
       split; [done|]. split; [|done]. intros ->. simpl in Hlen. lia. }
  assert (Hfail : fail file' = false).
  { by destruct Hafter as [(tl & _ & ->)|(_ & ->)]. }
  rewrite Hfail, <- Hlen, Nat2Z.id.
  rewrite (ReadWheelFile_letters_line line _ i wheels Halpha Hi Hok).
  do 2 f_equal. lia.
Qed.

(** The outer loop over lines of [n] letters, each closed by a newline. *)
Lemma ReadWheelFile_wheels_good (n : Z) (good : list (list ascii))
    (rest' : list ascii) (m : nat) :
  0 < n < UINT_MAX -> Forall (wheel_line n) good ->
  forall (i : nat) (letters : list ascii) (wheels : Lock),
  (i + length good <= length wheels)%nat -> tables_ok wheels ->
  exists letters',
    ReadWheelFile_wheels n (length good + m) (Z.of_nat i)
      (MkStream (closed_lines good ++ rest') false false) letters wheels =
    ReadWheelFile_wheels n m (Z.of_nat (i + length good))
      (MkStream rest' false false) letters' (fill i good wheels).
Proof.
  intros Hn Hgood.
  induction Hgood as [|l good Hl _ IH]; intros i letters wheels Hi Hok.
  - exists letters. simpl. by rewrite Nat.add_0_r.
  - cbn [closed_lines length Nat.add fill]. simpl in Hi.
    rewrite <- app_assoc. cbn [app].
    rewrite (ReadWheelFile_wheels_line n l _
               (MkStream (closed_lines good ++ rest') false false));
      [| done | done | lia | done | left; by eexists].
    destruct (IH (S i) (l ++ NUL :: drop (S (length l)) letters)
                (alter (set_letters l) i wheels)) as [letters' IH'].
    + rewrite length_alter. lia.
    + by apply tables_ok_alter.
    + exists letters'. rewrite IH'. do 2 f_equal. lia.
Qed.

Lemma alphabetindex_inj (a b : ascii) :
  islower a = true -> islower b = true ->
  alphabetindex a = alphabetindex b -> a = b.
Proof.
  unfold islower, alphabetindex, char_to_int. intros Ha Hb.
  apply andb_prop in Ha as [Ha1 Ha2]. apply andb_prop in Hb as [Hb1 Hb2].
  apply N.leb_le in Ha1, Ha2, Hb1, Hb2.
  destruct (Z.ltb_spec (Z.of_N (N_of_ascii a)) 128) as [_|]; [|lia].
  destruct (Z.ltb_spec (Z.of_N (N_of_ascii b)) 128) as [_|]; [|lia].
  intros Heq. assert (HN : N_of_ascii a = N_of_ascii b) by lia.
  by rewrite <- (ascii_N_embedding a), <- (ascii_N_embedding b), HN.
Qed.

Lemma set_letters_lookup (line : list ascii) (w : Wheel) (k : nat) :
  (k < length w)%nat ->
  set_letters line w !! k = Some true <->
  w !! k = Some true \/
  exists c, c ∈ line /\ Z.to_nat (alphabetindex (tolower c)) = k.
Proof.
  unfold set_letters. revert w.
  induction line as [|c line IH]; intros w Hk; cbn [foldl].
  - split; [by left|]. intros [H|(c & Hc & _)]; [done|].
    by apply elem_of_nil in Hc.
  - rewrite IH by (by rewrite length_insert).
    rewrite list_lookup_insert_Some. split.
    + intros [[(Hkc & _ & _)|[_ Hw]]|(c' & Hc' & Hk')].
      * right. exists c. split; [apply list_elem_of_here | done].
      * by left.
      * right. exists c'. split; [by apply list_elem_of_further | done].
    + intros [Hw|(c' & Hc' & Hk')].
      * destruct (decide (Z.to_nat (alphabetindex (tolower c)) = k)) as [E|E].
        -- left. left. split; [done|]. split; [done | lia].
        -- left. by right.
      * apply elem_of_cons in Hc' as [->|Hc'].
        -- left. left. split; [done|]. split; [done | lia].
        -- right. by exists c'.
Qed.

Lemma has_letter_set_letters (line : list ascii) (c : ascii) :
  Forall (fun c => isalpha c = true) line -> islower c = true ->
  has_letter (set_letters line (replicate (Z.to_nat ALPHABETLENGTH) false)) c
    = true <->
  exists c', c' ∈ line /\ tolower c' = c.
Proof.
  intros Hline Hc. pose proof (islower_alphabetindex c Hc) as Hidx.
  unfold has_letter. rewrite andb_true_iff, bool_decide_eq_true.
  rewrite set_letters_lookup
    by (rewrite length_replicate; unfold ALPHABETLENGTH in *; lia).
  split.
  - intros [_ [Hf|(c' & Hc' & Hk)]].
    + apply lookup_replicate in Hf as [Hf _]. discriminate.
    + exists c'. split; [done|].
      pose proof (proj1 (Forall_forall _ _) Hline c' Hc') as Ha.
      simpl in Ha. pose proof (isalpha_index c' Ha).
      apply alphabetindex_inj; [by apply isalpha_tolower | done | lia].
  - intros (c' & Hc' & <-). split; [apply Z.leb_le; lia|].
    right. by exists c'.
Qed.

Lemma getline_skip_newline (body buf : list ascii) :
  getline (MkStream (NL :: body) false false) buf 1 =
  (MkStream body false false, NUL :: drop 1 buf).
Proof. reflexivity. Qed.

(** [ReadWheelFile] once both counts are read. *)
Lemma ReadWheelFile_header (text body : list ascii) (W n : Z) :
  header text W n body -> 0 < W <= INT_MAX -> 0 < n < UINT_MAX ->
  ReadWheelFile (Some text) 0 0 =
  match ReadWheelFile_wheels n (Z.to_nat W) 0 (MkStream body false false)
          (NUL :: drop 1 (replicate (Z.to_nat (n + 1)) NUL))
          (replicate (Z.to_nat W) (replicate (Z.to_nat ALPHABETLENGTH) false))
  with
  | Ok (wheels, letters) => Ok (MkLockData wheels letters W n)
  | Throw e => Throw e
  | Fault => Fault
  end.
Proof.
  intros (s1 & HW & Hn) HWr Hnr.
  unfold ReadWheelFile, open, good. cbn [failbit eofbit negb andb].
  rewrite HW.
  destruct (Z.eqb_spec W 0) as [|_]; [lia|].
  destruct (Z.ltb_spec INT_MAX W) as [|_]; [lia|].
  rewrite Hn.
  destruct (Z.eqb_spec n 0) as [|_]; [lia|].
  rewrite to_uint_small by lia.
  destruct (Z.eqb_spec (n + 1) 0) as [|_]; [lia|].
  by rewrite getline_skip_newline.
Qed.

Lemma tables_ok_fresh (W : nat) :
  tables_ok (replicate W (replicate (Z.to_nat ALPHABETLENGTH) false)).
Proof. apply Forall_replicate. by rewrite length_replicate. Qed.

(** The whole of [ReadWheelFile] on a well-formed file. *)
Lemma ReadWheelFile_lines (text tail : list ascii) (W n : Z)
    (lines : list (list ascii)) :
  0 < W <= INT_MAX -> 0 < n < UINT_MAX ->
  Z.of_nat (length lines) = W -> Forall (wheel_line n) lines ->
  header text W n (unlines lines ++ tail) ->
  tail = [] \/ (exists t, tail = NL :: t) ->
  exists letters,
    ReadWheelFile (Some text) 0 0 =
    Ok (MkLockData
          (fill 0 lines (replicate (Z.to_nat W)
                           (replicate (Z.to_nat ALPHABETLENGTH) false)))
          letters W n).
Proof.
  intros HW Hn Hlen Hlines Hhead Htail.
  rewrite (ReadWheelFile_header _ _ _ _ Hhead HW Hn).
  assert (Hne : lines <> []) by (intros ->; simpl in Hlen; lia).
  destruct (exists_last Hne) as (good & last & ->). clear Hne.
  rewrite length_app in Hlen. simpl in Hlen.
  apply Forall_app in Hlines as [Hgood Hlast].
  rewrite Forall_singleton in Hlast.
  rewrite unlines_closed, <- app_assoc.
  replace (Z.to_nat W) with (length good + 1)%nat by lia.
  set (wheels0 := replicate (length good + 1)
                    (replicate (Z.to_nat ALPHABETLENGTH) false)).
  assert (Hok0 : tables_ok wheels0) by apply tables_ok_fresh.
  assert (Hlen0 : length wheels0 = (length good + 1)%nat)
    by apply length_replicate.
  destruct (ReadWheelFile_wheels_good n good (last ++ tail) 1 Hn Hgood 0
              (NUL :: drop 1 (replicate (Z.to_nat (n + 1)) NUL)) wheels0)
    as [letters' Hloop]; [lia | done |].
  change (Z.of_nat 0) with 0 in Hloop. rewrite Hloop. clear Hloop.
  set (file' := match tail with
                | [] => MkStream [] false true
                | _ :: tl => MkStream tl false false
                end).
  rewrite (ReadWheelFile_wheels_line n last tail file' 0 _ letters'
             (fill 0 good wheels0) Hn Hlast).
  - cbn [ReadWheelFile_wheels]. rewrite fill_app. by eexists.
  - rewrite fill_length. simpl. lia.
  - by apply fill_tables_ok.
  - destruct Htail as [->|[t ->]]; [by right | left; by eexists].
Qed.

(** C8: from a wheel count W > 0 and W lines of exactly n alphabetic
    characters each, ReadWheelFile builds W wheels of 26 flags, and on
    wheel i the flag of a letter is set exactly when the letter, in either
    case, occurs on line i; a letter that occurs twice is no error. *)
Theorem ReadWheelFile_builds_lock (text tail : list ascii) (W n : Z)
    (lines : list (list ascii)) :
  0 < W <= INT_MAX -> 0 < n < UINT_MAX ->
  Z.of_nat (length lines) = W -> Forall (wheel_line n) lines ->
  header text W n (unlines lines ++ tail) ->
  tail = [] \/ (exists t, tail = NL :: t) ->
  exists d,
    ReadWheelFile (Some text) 0 0 = Ok d /\
    ld_wheelCount d = W /\ ld_lettersPerWheel d = n /\
    lock_of (ld_wheels d) W /\
    forall (i : nat) (line : list ascii), lines !! i = Some line ->
      exists w, ld_wheels d !! i = Some w /\
        forall c, islower c = true ->
          (has_letter w c = true <-> exists c', c' ∈ line /\ tolower c' = c).
Proof.
  intros HW Hn Hlen Hlines Hhead Htail.
  destruct (ReadWheelFile_lines text tail W n lines HW Hn Hlen Hlines
              Hhead Htail) as [letters Hrun].
  eexists. split; [exact Hrun|]. cbn [ld_wheelCount ld_lettersPerWheel
                                       ld_wheels].
  split; [done|]. split; [done|]. split.
  - split; [rewrite fill_length, length_replicate; lia|].
    split; [unfold INT_MAX, UINT_MAX in *; lia|].
    apply fill_tables_ok, tables_ok_fresh.
  - intros i line Hi.
    pose proof (fill_lookup lines 0 i
                  (replicate (Z.to_nat W)
                     (replicate (Z.to_nat ALPHABETLENGTH) false))
                  line Hi) as Hw.
    cbn [Nat.add] in Hw.
    rewrite lookup_replicate_2 in Hw
      by (apply lookup_lt_Some in Hi; lia).
    eexists. split; [exact Hw|]. intros c Hc.
    apply has_letter_set_letters; [|done].
    by destruct (proj1 (Forall_lookup _ _) Hlines _ _ Hi).
Qed.

Lemma ReadWheelFile_builds_lock_witness :
  exists d,
    ReadWheelFile (Some (unlines [text "2"; text "3"; text "aba"; text "Bcc"]))
                  0 0 = Ok d /\
    ld_wheelCount d = 2 /\ ld_lettersPerWheel d = 3 /\
    lock_of (ld_wheels d) 2 /\
    forall (i : nat) (line : list ascii),
      [text "aba"; text "Bcc"] !! i = Some line ->
      exists w, ld_wheels d !! i = Some w /\
        forall c, islower c = true ->
          (has_letter w c = true <-> exists c', c' ∈ line /\ tolower c' = c).
Proof.
  apply (ReadWheelFile_builds_lock
           (unlines [text "2"; text "3"; text "aba"; text "Bcc"]) []
           2 3 [text "aba"; text "Bcc"]).
  - vm_compute. split; [reflexivity | discriminate].
  - vm_compute. split; reflexivity.
  - reflexivity.
  - repeat constructor.
  - exists (MkStream (NL :: unlines [text "3"; text "aba"; text "Bcc"])
                    false false).
    split; vm_compute; reflexivity.
  - by left.
Defined.

(** ** Malformed wheel files *)

Lemma extract_uint_no_number (input : list ascii) :
  no_number input -> (extract_uint (MkStream input false false) 0).1 = 0.
Proof.
  unfold no_number, extract_uint. cbn [good failbit eofbit negb andb rest].
  destruct (skipws input) as [|c tl]; [done|].
  destruct (Ascii.eqb c "-"); cbn [orb];
    [|destruct (Ascii.eqb c "+")];
    (destruct (digits _ false 0) as [[seen v] after]; simpl;
     by intros ->).
Qed.

Lemma throw_aborts (file : option (list ascii)) (e : Error) :
  ReadWheelFile file 0 0 = Throw e -> aborts file e.
Proof. intros H. split; [done|]. intros d. unfold main. by rewrite H. Qed.

Lemma getline_loop_full (line post : list ascii) (c : ascii) (count : Z) :
  NL ∉ line -> c <> NL -> count = Z.of_nat (length line) + 1 ->
  getline_loop (line ++ c :: post) count =
  MkExtracted line (c :: post) (Z.of_nat (length line)) false true.
Proof.
  revert count.
  induction line as [|a line IH]; intros count Hnl Hc Hcount;
    cbn [app getline_loop].
  - apply Ascii.eqb_neq in Hc. rewrite Hc.
    destruct (Z.leb_spec (count - 1) 0) as [_|]; [done | simpl in *; lia].
  - apply not_elem_of_cons in Hnl as [Ha Hnl].
    apply not_eq_sym, Ascii.eqb_neq in Ha. rewrite Ha.
    cbn [length] in Hcount.
    destruct (Z.leb_spec (count - 1) 0) as [|_]; [lia|].
    rewrite (IH (count - 1)) by (done || lia).
    cbn [stored remaining chcount hit_eof hit_full length]. f_equal. lia.
Qed.

(** A line with more than [n] characters. *)
Lemma ReadWheelFile_wheels_too_many (n : Z) (line post : list ascii)
    (c : ascii) (m : nat) (i : Z) (letters : list ascii) (wheels : Lock) :
  0 < n < UINT_MAX -> Z.of_nat (length line) = n ->
  NL ∉ line -> c <> NL ->
  ReadWheelFile_wheels n (S m) i (MkStream (line ++ c :: post) false false)
                       letters wheels = Throw ErrTooManyLetters.
Proof.
  intros Hn Hlen Hnl Hc. cbn [ReadWheelFile_wheels].
  rewrite to_uint_small by lia. unfold getline.
  cbn [good failbit eofbit negb andb rest].
  destruct (Z.ltb_spec 0 (n + 1)) as [_|]; [|lia].
  by rewrite (getline_loop_full line post c (n + 1)) by (done || lia).
Qed.

(** A line that stops being alphabetic before [n] characters: at its end
    (then [c] is the terminator) or at a character [c] of the line. *)
Lemma ReadWheelFile_wheels_stop (n : Z) (pre post after : list ascii)
    (c : ascii) (file' : ifstream) (m i : nat) (letters : list ascii)
    (wheels : Lock) :
  0 < n < UINT_MAX ->
  Forall (fun c => isalpha c = true) pre -> isalpha c = false ->
  Z.of_nat (length pre) < n ->
  (i < length wheels)%nat -> tables_ok wheels ->
  getline (MkStream after false false) letters (n + 1) =
    (file', pre ++ c :: post) ->
  fail file' = false ->
  ReadWheelFile_wheels n (S m) (Z.of_nat i) (MkStream after false false)
                       letters wheels =
  Throw (if Ascii.eqb c NUL then ErrInsufficientLetters
         else ErrNonAlphabetical).
Proof.
  intros Hn Hpre Hc Hlen Hi Hok Hget Hfail. cbn [ReadWheelFile_wheels].
  rewrite to_uint_small by lia. rewrite Hget, Hfail.
  replace (Z.to_nat n)
    with (length pre + S (Z.to_nat n - length pre - 1))%nat by lia.
  by rewrite (ReadWheelFile_letters_stop pre post c i _ wheels Hpre Hc Hi Hok).
Qed.

(** [ReadWheelFile] up to the first wheel that is not one of the good
    lines: the outer loop has at least one iteration left there. *)
Lemma ReadWheelFile_so_far (text rest' : list ascii) (W n : Z)
    (good : list (list ascii)) :
  wheels_so_far text W n good rest' ->
  exists (m : nat) (letters : list ascii) (wheels : Lock),
    (length good < length wheels)%nat /\ tables_ok wheels /\
    ReadWheelFile (Some text) 0 0 =
    match ReadWheelFile_wheels n (S m) (Z.of_nat (length good))
            (MkStream rest' false false) letters wheels with
    | Ok (wheels, letters) => Ok (MkLockData wheels letters W n)
    | Throw e => Throw e
    | Fault => Fault
    end.
Proof.
  intros (HW & Hn & Hhead & Hgood & Hlen).
  rewrite (ReadWheelFile_header _ _ _ _ Hhead HW Hn).
  set (wheels0 := replicate (Z.to_nat W)
                    (replicate (Z.to_nat ALPHABETLENGTH) false)).
  assert (Hlen0 : length wheels0 = Z.to_nat W) by apply length_replicate.
  set (m := (Z.to_nat W - length good - 1)%nat).
  assert (Hm : Z.to_nat W = (length good + S m)%nat) by lia.
  destruct (ReadWheelFile_wheels_good n good rest' (S m) Hn Hgood 0
              (NUL :: drop 1 (replicate (Z.to_nat (n + 1)) NUL)) wheels0)
    as [letters' Hloop]; [lia | apply tables_ok_fresh |].
  change (Z.of_nat 0) with 0 in Hloop. cbn [Nat.add] in Hloop.
  exists m, letters', (fill 0 good wheels0).
  split; [rewrite fill_length; lia|].
  split; [apply fill_tables_ok, tables_ok_fresh|].
  by rewrite Hm, Hloop.
Qed.

(** C9: ReadWheelFile throws, and the run prints the message of the
    exception and nothing of a match, when the wheel count is 0 or is not
    a number (wheel count error), when the letters per wheel are 0 or not
    a number (letters per wheel error), when after good wheels comes a
    line of fewer letters than declared (insufficient letters), a line in
    which a character that is not a letter comes first (non-alphabetical),
    or a line with more characters than declared (too many letters); the
    five exceptions differ. *)
Theorem ReadWheelFile_errors :
  (forall text,
     no_number text \/ (extract_uint (MkStream text false false) 0).1 = 0 ->
     aborts (Some text) ErrWheelCount) /\
  (forall text W s1,
     extract_uint (MkStream text false false) 0 = (W, s1) ->
     0 < W <= INT_MAX ->
     (good s1 = true /\ no_number (rest s1)) \/ (extract_uint s1 0).1 = 0 ->
     aborts (Some text) ErrLettersPerWheel) /\
  (forall text W n good line after,
     wheels_so_far text W n good (line ++ after) ->
     Forall (fun c => isalpha c = true) line ->
     Z.of_nat (length line) < n ->
     (exists tl, after = NL :: tl) \/ (after = [] /\ line <> []) ->
     aborts (Some text) ErrInsufficientLetters) /\
  (forall text W n good pre c post after,
     wheels_so_far text W n good ((pre ++ c :: post) ++ after) ->
     NL ∉ (pre ++ c :: post) ->
     Z.of_nat (length (pre ++ c :: post)) <= n ->
     Forall (fun c => isalpha c = true) pre ->
     isalpha c = false -> c <> NUL ->
     (exists tl, after = NL :: tl) \/ after = [] ->
     aborts (Some text) ErrNonAlphabetical) /\
  (forall text W n good line c post,
     wheels_so_far text W n good (line ++ c :: post) ->
     Z.of_nat (length line) = n -> NL ∉ line -> c <> NL ->
     aborts (Some text) ErrTooManyLetters) /\
  NoDup [ErrWheelCount; ErrLettersPerWheel; ErrInsufficientLetters;
         ErrNonAlphabetical; ErrTooManyLetters].
Proof.
  split; [|split; [|split; [|split; [|split]]]].
  - intros text H. apply throw_aborts.
    assert (H0 : (extract_uint (MkStream text false false) 0).1 = 0).
    { destruct H as [H|H]; [by apply extract_uint_no_number | done]. }
    unfold ReadWheelFile, open, good. cbn [failbit eofbit negb andb].
    destruct (extract_uint (MkStream text false false) 0) as [W s1].
    simpl in H0. by subst W.
  - intros text W s1 HW HWr H. apply throw_aborts.
    assert (H0 : (extract_uint s1 0).1 = 0).
    { destruct H as [[Hg H]|H]; [|done].
      destruct s1 as [input [|] [|]]; try discriminate.
      by apply extract_uint_no_number. }
    unfold ReadWheelFile, open, good. cbn [failbit eofbit negb andb].
    rewrite HW.
    destruct (Z.eqb_spec W 0) as [|_]; [lia|].
    destruct (Z.ltb_spec INT_MAX W) as [|_]; [lia|].
    destruct (extract_uint s1 0) as [n s2]. simpl in H0. by subst n.
  - intros text W n good line after Hfar Halpha Hlen Hafter.
    apply throw_aborts.
    destruct (ReadWheelFile_so_far _ _ _ _ _ Hfar)
      as (m & letters & wheels & Hi & Hok & ->).
    destruct Hfar as (_ & Hn & _).
    destruct (alphabetic_line line Halpha) as [_ Hnl].
    set (file' := match after with
                  | [] => MkStream [] false true
                  | _ :: tl => MkStream tl false false
                  end).
    rewrite (ReadWheelFile_wheels_stop n line
               (drop (S (length line)) letters) (line ++ after) NUL file');
      try done.
    + rewrite (getline_whole line after letters file'); [done | done | lia |].
      destruct Hafter as [[tl ->]|[-> Hne]]; [left; by eexists | by right].
    + by destruct Hafter as [[tl ->]|[-> Hne]].
  - intros text W n good pre c post after Hfar Hnl Hlen Hpre Hc HcN Hafter.
    apply throw_aborts.
    destruct (ReadWheelFile_so_far _ _ _ _ _ Hfar)
      as (m & letters & wheels & Hi & Hok & ->).
    destruct Hfar as (_ & Hn & _).
    set (line := pre ++ c :: post) in *.
    set (file' := match after with
                  | [] => MkStream [] false true
                  | _ :: tl => MkStream tl false false
                  end).
    rewrite (ReadWheelFile_wheels_stop n pre
               (post ++ NUL :: drop (S (length line)) letters)
               (line ++ after) c file'); try done.
    + apply Ascii.eqb_neq in HcN. by rewrite HcN.
    + unfold line in Hlen. rewrite length_app in Hlen. simpl in Hlen. lia.
    + rewrite (getline_whole line after letters file'); [| done | lia |].
      * unfold line. by rewrite <- app_assoc.
      * destruct Hafter as [[tl Htl]|Htl]; subst after;
          [left; by eexists | right].
        split; [done|]. split; [|done]. unfold line. by destruct pre.
    + by destruct Hafter as [[tl Htl]|Htl]; subst after.
  - intros text W n good line c post Hfar Hlen Hnl Hc.
    apply throw_aborts.
    destruct (ReadWheelFile_so_far _ _ _ _ _ Hfar)
      as (m & letters & wheels & Hi & Hok & ->).
    destruct Hfar as (_ & Hn & _).
    by rewrite (ReadWheelFile_wheels_too_many n line post c).
  - apply (bool_decide_unpack _). vm_compute. exact I.
Qed.

Ltac solve_so_far s1 :=
  split; [vm_compute; split; [reflexivity | discriminate]|];
  split; [vm_compute; split; reflexivity|];
  split; [exists s1; split; vm_compute; reflexivity|];
  split; [repeat constructor | vm_compute; reflexivity].

Lemma ReadWheelFile_errors_witness :
  aborts (Some (unlines [text "0"; text "2"; text "ab"])) ErrWheelCount /\
  aborts (Some (unlines [text "x"; text "2"; text "ab"])) ErrWheelCount /\
  aborts (Some (unlines [text "3"; text "x"; text "ab"])) ErrLettersPerWheel /\
  aborts (Some (unlines [text "1"; text "3"; text "ab"]))
         ErrInsufficientLetters /\
  aborts (Some (unlines [text "3"; text "2"; text "ab"; text "a1"; text "ab"]))
         ErrNonAlphabetical /\
  aborts (Some (unlines [text "3"; text "1"; text "ab"; text "ab"; text "ab"]))
         ErrTooManyLetters.
Proof.
  destruct ReadWheelFile_errors as (H1 & H2 & H3 & H4 & H5 & _).
  split; [|split; [|split; [|split; [|split]]]].
  - apply H1. right. vm_compute. reflexivity.
  - apply H1. left. vm_compute. reflexivity.
  - apply (H2 _ 3 (MkStream (NL :: unlines [text "x"; text "ab"]) false false)).
    + vm_compute. reflexivity.
    + vm_compute. split; [reflexivity | discriminate].
    + left. split; vm_compute; reflexivity.
  - apply (H3 _ 1 3 [] (text "ab") []).
    + solve_so_far (MkStream (NL :: unlines [text "3"; text "ab"]) false false).
    + repeat constructor.
    + vm_compute. reflexivity.
    + right. split; [reflexivity | discriminate].
  - apply (H4 _ 3 2 [text "ab"] (text "a") "1"%char [] (NL :: text "ab")).
    + solve_so_far (MkStream (NL :: unlines [text "2"; text "ab"; text "a1";
                                             text "ab"]) false false).
    + apply (bool_decide_unpack _). vm_compute. exact I.
    + vm_compute. discriminate.
    + repeat constructor.
    + reflexivity.
    + discriminate.
    + left. by eexists.
  - apply (H5 _ 3 1 [] (text "a") "b"%char
              (NL :: unlines [text "ab"; text "ab"])).
    + solve_so_far (MkStream (NL :: unlines [text "1"; text "ab"; text "ab";
                                             text "ab"]) false false).
    + reflexivity.
    + apply (bool_decide_unpack _). vm_compute. exact I.
    + discriminate.
Defined.

(** * Further properties *)

(** ** The letter index *)

(** X1: alphabetindex maps the lower-case letters one to one onto the
    indices 0..25 of a wheel table. *)
Theorem alphabetindex_bijective :
  (forall c, islower c = true -> 0 <= alphabetindex c < ALPHABETLENGTH) /\
  (forall a b, islower a = true -> islower b = true ->
     alphabetindex a = alphabetindex b -> a = b) /\
  (forall k, 0 <= k < ALPHABETLENGTH ->
     exists c, islower c = true /\ alphabetindex c = k).
Proof.
  split; [exact islower_alphabetindex|]. split; [exact alphabetindex_inj|].
  intros k Hk. unfold ALPHABETLENGTH in Hk.
  exists (ascii_of_N (Z.to_N (k + 97))).
  assert (HN : N_of_ascii (ascii_of_N (Z.to_N (k + 97))) = Z.to_N (k + 97)).
  { apply N_ascii_embedding. lia. }
  unfold islower, alphabetindex, char_to_int. rewrite HN.
  change (Z.of_N (N_of_ascii "a")) with 97. cbn [Z.ltb Z.compare Pos.compare
    Pos.compare_cont].
  split.
  - apply andb_true_intro. split; apply N.leb_le; lia.
  - destruct (Z.ltb_spec (Z.of_N (Z.to_N (k + 97))) 128); lia.
Qed.

Lemma alphabetindex_bijective_witness :
  0 <= alphabetindex "q" < ALPHABETLENGTH /\
  (alphabetindex "q" = alphabetindex "q" -> "q"%char = "q"%char) /\
  exists c, islower c = true /\ alphabetindex c = 25.
Proof.
  destruct alphabetindex_bijective as (H1 & H2 & H3).
  split; [exact (H1 "q"%char eq_refl)|].
  split; [exact (H2 "q"%char "q"%char eq_refl eq_refl)|].
  apply H3. vm_compute. split; [discriminate | reflexivity].
Defined.

(** ** TestWord at and beyond its preconditions *)

Lemma bind_ret {A B} (a : A) (f : A -> M B) (h : Lock) :
  bind (ret a) f h = f a h.
Proof. unfold bind, ret. simpl. by destruct (f a h). Qed.

Lemma bind_trace {A B} (m : M A) (f : A -> M B) (h : Lock) :
  trace (bind m f h) =
  trace (m h) ++ match value (m h) with
                 | Some a => trace (f a (heap (m h)))
                 | None => []
                 end.
Proof.
  unfold bind. destruct (value (m h)); simpl; [done|].
  by rewrite app_nil_r.
Qed.

Lemma TestWord_offsets_empty (word : list ascii) (n : nat) (i count : Z)
    (h : Lock) :
  0 <= count <= UINT_MAX ->
  TestWord_offsets word 0 n i count h =
  MkRun (Some (to_uint (count + Z.of_nat n))) h [].
Proof.
  revert i count. induction n as [|n IH]; intros i count Hc.
  - simpl. unfold ret. by rewrite Z.add_0_r, to_uint_small.
  - change (TestWord_offsets word 0 (S n) i count)
      with (matched <~ ret true ;;
            TestWord_offsets word 0 n (i + 1)
              (if matched : bool then to_uint (count + 1) else count)).
    rewrite bind_ret, IH by apply to_uint_range.
    rewrite to_uint_add_l. do 3 f_equal. lia.
Qed.

(** X2: called with wordLength 0, TestWord reads no wheel at all and
    returns one more than the wheel count, whatever the tables hold. *)
Theorem TestWord_empty_word (word : list ascii) (W : Z) (lock : Lock) :
  0 <= W < INT_MAX ->
  value (TestWord word 0 W lock) = Some (W + 1) /\
  trace (TestWord word 0 W lock) = [].
Proof.
  intros HW. unfold TestWord, TestWord_space.
  assert (Hs : to_uint (W - 0) = W).
  { rewrite Z.sub_0_r. apply to_uint_small.
    unfold INT_MAX, UINT_MAX in *. lia. }
  rewrite Hs. unfold bind.
  rewrite TestWord_offsets_empty by (unfold UINT_MAX; lia).
  cbn [value heap trace ret app]. rewrite Z.add_0_l, Z2Nat.id by lia.
  rewrite to_int_to_uint, to_int_small by lia. done.
Qed.

Lemma TestWord_empty_word_witness :
  value (TestWord [] 0 3 lock_ab3) = Some 4 /\
  trace (TestWord [] 0 3 lock_ab3) = [].
Proof.
  apply (TestWord_empty_word [] 3 lock_ab3).
  vm_compute. split; [discriminate | reflexivity].
Defined.

Lemma TestWord_letters_past_end (word : list ascii) (n : nat) (lock : Lock) :
  value (TestWord_letters word (Z.of_nat (length lock)) (S n) 0 lock) = None.
Proof.
  cbn [TestWord_letters]. rewrite bind_value. unfold lift at 1. cbn [value heap].
  destruct (if 0 <=? 0 then word !! Z.to_nat 0 else None) as [c|]; [|done].
  rewrite bind_value. unfold load at 1. cbn [value].
  unfold cell. rewrite Z.add_0_r, Nat2Z.id.
  change (heap (lift (Some c) lock)) with lock.
  rewrite (lookup_ge_None_2 lock (length lock)) by lia.
  by destruct ((0 <=? Z.of_nat (length lock)) && (0 <=? alphabetindex c)).
Qed.

Lemma TestWord_offsets_past_end (word : list ascii) (L : nat) (lock : Lock)
    (k : nat) :
  forall (i n : nat) (count : Z),
  (i + k = length lock)%nat -> (k < n)%nat ->
  value (TestWord_offsets word (Z.of_nat (S L)) n (Z.of_nat i) count lock)
    = None.
Proof.
  induction k as [|k IH]; intros i n count Hi Hn;
    (destruct n as [|n]; [lia|]); cbn [TestWord_offsets];
    rewrite bind_value, Nat2Z.id.
  - replace i with (length lock) by lia.
    by rewrite TestWord_letters_past_end.
  - destruct (value (TestWord_letters word (Z.of_nat i) (S L) 0 lock))
      as [matched|]; [|done].
    rewrite TestWord_letters_read_only.
    replace (Z.of_nat i + 1) with (Z.of_nat (S i)) by lia.
    apply IH; lia.
Qed.

(** X3: called with a word longer than the lock has wheels, TestWord does
    not return 0: its loop bound wraps around and a lookup leaves the wheel
    tables, whatever the word and the tables hold.  The length check of the
    caller is what keeps the call defined. *)
Theorem TestWord_longer_word_faults (word : list ascii) (L W : Z)
    (lock : Lock) :
  Z.of_nat (length lock) = W -> W < L <= UINT_MAX ->
  value (TestWord word L W lock) = None.
Proof.
  intros HW HL. unfold TestWord, TestWord_space, to_uint.
  rewrite bind_value.
  assert (Hmod : (W - L) mod 2 ^ 32 = W - L + 2 ^ 32).
  { symmetry. apply (Z.mod_unique _ _ (-1)); unfold UINT_MAX in *; lia. }
  rewrite Hmod.
  replace L with (Z.of_nat (S (Z.to_nat L - 1))) at 1 by lia.
  rewrite (TestWord_offsets_past_end word _ lock (length lock) 0); [done|lia|].
  unfold UINT_MAX in *. lia.
Qed.

Lemma TestWord_longer_word_faults_witness :
  value (TestWord (text "abab") 4 3 lock_ab3) = None.
Proof.
  apply (TestWord_longer_word_faults (text "abab") 4 3 lock_ab3).
  - reflexivity.
  - vm_compute. split; [reflexivity | discriminate].
Defined.

Lemma TestWord_letters_trace_length (word : list ascii) (i : Z) (n : nat)
    (j : Z) (h : Lock) :
  (length (trace (TestWord_letters word i n j h)) <= n)%nat.
Proof.
  revert j. induction n as [|n IH]; intros j; cbn [TestWord_letters];
    [simpl; lia|].
  rewrite bind_trace. unfold lift. cbn [trace value heap app].
  destruct (if 0 <=? j then word !! Z.to_nat j else None) as [c|];
    [|simpl; lia].
  rewrite bind_trace. unfold load. cbn [trace value heap app length].
  specialize (IH (j + 1)).
  destruct (cell h (i + j) (alphabetindex c)) as [[|]|]; simpl; lia.
Qed.

Lemma TestWord_offsets_trace_length (word : list ascii) (L : Z) (n : nat)
    (i count : Z) (h : Lock) :
  (length (trace (TestWord_offsets word L n i count h)) <= n * Z.to_nat L)%nat.
Proof.
  revert i count. induction n as [|n IH]; intros i count;
    cbn [TestWord_offsets]; [simpl; lia|].
  rewrite bind_trace, length_app.
  pose proof (TestWord_letters_trace_length word i (Z.to_nat L) 0 h) as Hin.
  destruct (value (TestWord_letters word i (Z.to_nat L) 0 h)) as [m|];
    [|simpl; lia].
  rewrite TestWord_letters_read_only.
  specialize (IH (i + 1) (if m then to_uint (count + 1) else count)). lia.
Qed.

(** X4: TestWord makes at most (space + 1) * wordLength lookups, for every
    word and every table: the number of letters on a wheel plays no part. *)
Theorem TestWord_lookup_bound (word : list ascii) (L W : Z) (lock : Lock) :
  (length (trace (TestWord word L W lock))
   <= Z.to_nat (TestWord_space L W + 1) * Z.to_nat L)%nat.
Proof.
  unfold TestWord. rewrite bind_trace, length_app.
  pose proof (TestWord_offsets_trace_length word L
                (Z.to_nat (TestWord_space L W + 1)) 0 0 lock) as Hout.
  destruct (value (TestWord_offsets word L
                     (Z.to_nat (TestWord_space L W + 1)) 0 0 lock));
    simpl; lia.
Qed.

Lemma TestWord_letters_first_miss (lock : Lock) (word : list ascii)
    (s : nat) (c : ascii) (w : Wheel) (p : nat) :
  tables_ok lock ->
  forall (k n : nat),
  (p < n)%nat ->
  Forall (fun c => islower c = true) (take (k + S p) word) ->
  alignedb (drop (s + k) lock) (take p (drop k word)) = true ->
  word !! (k + p)%nat = Some c -> lock !! (s + k + p)%nat = Some w ->
  has_letter w c = false ->
  TestWord_letters word (Z.of_nat s) n (Z.of_nat k) lock =
  MkRun (Some false) lock
        (lookups (Z.of_nat s) (Z.of_nat k) (take (S p) (drop k word))).
Proof.
  intros Hok. induction p as [|p IH]; intros k n Hn Hlow Hal Hc Hw Hmiss;
    (destruct n as [|n]; [lia|]); cbn [TestWord_letters].
  - rewrite Nat.add_0_r in Hc, Hw.
    replace (0 <=? Z.of_nat k) with true by (symmetry; apply Z.leb_le; lia).
    rewrite Nat2Z.id, Hc, bind_lift_Some, <- Nat2Z.inj_add.
    assert (Hc' : islower c = true).
    { apply (proj1 (Forall_lookup _ _) Hlow k).
      rewrite lookup_take_lt by lia. done. }
    pose proof (proj1 (Forall_lookup _ _) Hok _ _ Hw) as Hlen.
    rewrite (bind_load _ _ _ _ _ (cell_has_letter _ _ _ _ Hw Hlen Hc')).
    rewrite Hmiss, (drop_S _ _ _ Hc). cbn [take lookups value heap trace ret].
    by rewrite Nat2Z.inj_add.
  - destruct (lookup_lt_is_Some_2 word k) as [c0 Hc0];
      [apply lookup_lt_Some in Hc; lia|].
    destruct (lookup_lt_is_Some_2 lock (s + k)%nat) as [w0 Hw0];
      [apply lookup_lt_Some in Hw; lia|].
    rewrite (drop_S _ _ _ Hc0), (drop_S _ _ _ Hw0) in Hal.
    cbn [take alignedb] in Hal. apply andb_prop in Hal as [Hhas Hal].
    replace (0 <=? Z.of_nat k) with true by (symmetry; apply Z.leb_le; lia).
    rewrite Nat2Z.id, Hc0, bind_lift_Some, <- Nat2Z.inj_add.
    assert (Hc' : islower c0 = true).
    { apply (proj1 (Forall_lookup _ _) Hlow k).
      rewrite lookup_take_lt by lia. done. }
    pose proof (proj1 (Forall_lookup _ _) Hok _ _ Hw0) as Hlen.
    rewrite (bind_load _ _ _ _ _ (cell_has_letter _ _ _ _ Hw0 Hlen Hc')).
    rewrite Hhas. replace (Z.of_nat k + 1) with (Z.of_nat (S k)) by lia.
    rewrite (IH (S k) n); try done.
    + rewrite (drop_S _ _ _ Hc0). cbn [take lookups value heap trace].
      rewrite Nat2Z.inj_add.
      by replace (Z.of_nat k + 1) with (Z.of_nat (S k)) by lia.
    + lia.
    + by replace (S k + S p)%nat with (k + S (S p))%nat by lia.
    + by replace (s + S k)%nat with (S (s + k)) by lia.
    + by replace (S k + p)%nat with (k + S p)%nat by lia.
    + by replace (s + S k + p)%nat with (s + k + S p)%nat by lia.
Qed.

(** X5: the test of one offset stops at the first letter that is missing:
    when the letters before position p are on their wheels and the letter
    at p is not, the inner loop reads exactly the wheels s..s+p, one
    lookup each, answers no match, and reads no wheel beyond. *)
Theorem TestWord_letters_stops_at_mismatch (lock : Lock)
    (word : list ascii) (s n p : nat) (c : ascii) (w : Wheel) :
  tables_ok lock -> (p < n)%nat ->
  Forall (fun c => islower c = true) (take (S p) word) ->
  matches_at lock (take p word) s ->
  word !! p = Some c -> lock !! (s + p)%nat = Some w ->
  has_letter w c = false ->
  TestWord_letters word (Z.of_nat s) n 0 lock =
  MkRun (Some false) lock (lookups (Z.of_nat s) 0 (take (S p) word)).
Proof.
  intros Hok Hn Hlow Hal Hc Hw Hmiss.
  apply alignedb_matches_at in Hal.
  apply (TestWord_letters_first_miss lock word s c w p Hok 0 n);
    rewrite ?Nat.add_0_r; done.
Qed.

Lemma TestWord_letters_stops_at_mismatch_witness :
  TestWord_letters (text "abcab") 0 5 0 lock_ab3 =
  MkRun (Some false) lock_ab3 [MkAccess 0 0; MkAccess 1 1; MkAccess 2 2].
Proof.
  apply (TestWord_letters_stops_at_mismatch lock_ab3 (text "abcab") 0 5 2
           "c"%char (true :: true :: replicate 24 false)).
  - repeat constructor.
  - lia.
  - repeat constructor.
  - apply alignedb_matches_at. reflexivity.
  - reflexivity.
  - reflexivity.
  - reflexivity.
Defined.

Lemma filter_none {A} (P : A -> Prop) `{!forall x, Decision (P x)}
    (l : list A) :
  Forall (fun x => ~ P x) l -> filter P l = [].
Proof.
  induction 1 as [|x l Hx _ IH]; [done|].
  by rewrite filter_cons_False, IH.
Qed.

(** X6: a word whose every letter is on every wheel fits at every offset:
    TestWord returns W - L + 1 (a single wheel with all letters gives 1 for
    every word of one letter). *)
Theorem TestWord_every_offset (lock : Lock) (word : list ascii) (W L : Z) :
  lock_of lock W -> W <= INT_MAX ->
  Z.of_nat (length word) = L -> 0 < L <= W ->
  Forall (fun c => islower c = true) word ->
  (forall w c, w ∈ lock -> c ∈ word -> has_letter w c = true) ->
  value (TestWord word L W lock) = Some (W - L + 1).
Proof.
  intros Hlock Hint HL HLW Hword Hall. subst L.
  destruct (TestWord_run lock word (length word) W Hlock ltac:(lia)
              ltac:(by rewrite take_ge by lia) ltac:(lia)) as [Hv _].
  cbv zeta in Hv. rewrite Hv, take_ge by lia. f_equal.
  destruct Hlock as (HW & _ & _). unfold alignments.
  rewrite filter_all.
  - rewrite length_seq.
    replace (Z.of_nat (S (length lock - length word)))
      with (W - Z.of_nat (length word) + 1) by lia.
    apply to_int_small. lia.
  - apply Forall_forall. intros s Hs j c Hj.
    apply list_elem_of_In, in_seq in Hs.
    pose proof (lookup_lt_Some _ _ _ Hj) as Hjlt.
    destruct (lookup_lt_is_Some_2 lock (s + j)%nat) as [w Hw]; [lia|].
    exists w. split; [done|].
    apply Hall; [by eapply list_elem_of_lookup_2
                | by eapply list_elem_of_lookup_2].
Qed.

Lemma TestWord_every_offset_witness :
  value (TestWord (text "ba") 2 3 lock_ab3) = Some (3 - 2 + 1).
Proof.
  apply (TestWord_every_offset lock_ab3 (text "ba") 3 2).
  - solve_lock_of.
  - vm_compute; discriminate.
  - reflexivity.
  - lia.
  - repeat constructor.
  - intros w c Hw Hc.
    repeat (apply elem_of_cons in Hw as [->|Hw]);
      [| | |by apply elem_of_nil in Hw];
      (repeat (apply elem_of_cons in Hc as [->|Hc]);
       [| |by apply elem_of_nil in Hc]); reflexivity.
Defined.

(** X7: a word with a letter that is on no wheel fits nowhere: TestWord
    returns 0. *)
Theorem TestWord_missing_letter (lock : Lock) (word : list ascii) (W L : Z)
    (c : ascii) :
  lock_of lock W -> Z.of_nat (length word) = L -> 0 < L <= W ->
  Forall (fun c => islower c = true) word ->
  c ∈ word -> (forall w, w ∈ lock -> has_letter w c = false) ->
  value (TestWord word L W lock) = Some 0.
Proof.
  intros Hlock HL HLW Hword Hc Hnone. subst L.
  destruct (TestWord_run lock word (length word) W Hlock ltac:(lia)
              ltac:(by rewrite take_ge by lia) ltac:(lia)) as [Hv _].
  cbv zeta in Hv. rewrite Hv, take_ge by lia. f_equal.
  unfold alignments. rewrite filter_none; [done|].
  apply Forall_forall. intros s _ Hm.
  apply list_elem_of_lookup in Hc as [j Hj].
  destruct (Hm j c Hj) as (w & Hw & Hhas).
  rewrite (Hnone w) in Hhas; [discriminate|].
  by eapply list_elem_of_lookup_2.
Qed.

Lemma TestWord_missing_letter_witness :
  value (TestWord (text "abc") 3 3 lock_ab3) = Some 0.
Proof.
  apply (TestWord_missing_letter lock_ab3 (text "abc") 3 3 "c"%char).
  - solve_lock_of.
  - reflexivity.
  - lia.
  - repeat constructor.
  - apply (bool_decide_unpack _). vm_compute. exact I.
  - intros w Hw.
    repeat (apply elem_of_cons in Hw as [->|Hw]);
      [| | |by apply elem_of_nil in Hw]; reflexivity.
Defined.

(** ** The dictionary loop on every input *)

Lemma getline_loop_consumes (input : list ascii) (count : Z) :
  Z.of_nat (length (remaining (getline_loop input count))) +
  chcount (getline_loop input count) = Z.of_nat (length input) /\
  0 <= chcount (getline_loop input count).
Proof.
  revert count. induction input as [|c tl IH]; intros count;
    cbn [getline_loop]; [simpl; lia|].
  destruct (Ascii.eqb c NL); [simpl; lia|].
  destruct (count - 1 <=? 0); [simpl; lia|].
  specialize (IH (count - 1)).
  cbn [remaining chcount length]. lia.
Qed.

(** What an iteration that goes on has done to the stream and the tables. *)
Lemma ProcessDictionary_step_progress (W : Z) (st st' : Scan) :
  good (sc_file st) = true ->
  ProcessDictionary_step W st = inl st' ->
  (length (rest (sc_file st')) < length (rest (sc_file st)))%nat /\
  sc_wheels st' = sc_wheels st.
Proof.
  intros Hgood. unfold ProcessDictionary_step, getline.
  rewrite Hgood. change (0 <? MAXWORDLENGTH + 1) with true. cbn [andb].
  pose proof (getline_loop_consumes (rest (sc_file st)) (MAXWORDLENGTH + 1))
    as [Hlen Hpos].
  set (e := getline_loop (rest (sc_file st)) (MAXWORDLENGTH + 1)) in *.
  unfold fail. cbn [failbit sc_count sc_wheels sc_out sc_calls].
  destruct (failbit (sc_file st) || hit_full e || (chcount e =? 0))
    eqn:Hfail; [discriminate|].
  apply orb_false_elim in Hfail as [_ Hch]. apply Z.eqb_neq in Hch.
  destruct (strlen _) as [len|]; [|discriminate].
  destruct (normalise _ _ _ _) as [[validWord word]|]; [|discriminate].
  unfold ProcessDictionary_test.
  cbn [sc_file sc_word sc_count sc_wheels sc_out sc_calls].
  pose proof (TestWord_read_only word (to_uint len) W (sc_wheels st)) as Hro.
  destruct (negb validWord); [intros [= <-]; simpl; split; [lia|done]|].
  destruct (W <? to_uint len); [intros [= <-]; simpl; split; [lia|done]|].
  destruct (value (TestWord word (to_uint len) W (sc_wheels st)));
    [|discriminate].
  destruct (0 <? to_uint z); intros [= <-]; simpl; (split; [lia|done]).
Qed.

Lemma ProcessDictionary_step_stop (W : Z) (st st' : Scan) (r : Result unit) :
  ProcessDictionary_step W st = inr (st', r) ->
  sc_wheels st' = sc_wheels st.
Proof.
  unfold ProcessDictionary_step.
  destruct (getline (sc_file st) (sc_word st) (MAXWORDLENGTH + 1))
    as [file word].
  cbn [sc_count sc_wheels sc_out sc_calls].
  destruct (fail file); [by intros [= <- _]|].
  destruct (strlen word) as [len|]; [|by intros [= <- _]].
  destruct (normalise _ _ _ _) as [[validWord word']|]; [|by intros [= <- _]].
  unfold ProcessDictionary_test.
  cbn [sc_file sc_word sc_count sc_wheels sc_out sc_calls].
  pose proof (TestWord_read_only word' (to_uint len) W (sc_wheels st)) as Hro.
  destruct (negb validWord); [discriminate|].
  destruct (W <? to_uint len); [discriminate|].
  destruct (value (TestWord word' (to_uint len) W (sc_wheels st))).
  - destruct (0 <? to_uint z); discriminate.
  - by intros [= <- _].
Qed.

Lemma ProcessDictionary_loop_returns (W : Z) (fuel : nat) :
  forall st : Scan,
  (length (rest (sc_file st)) < fuel)%nat ->
  exists res, ProcessDictionary_loop fuel W st = Some res /\
    sc_wheels (match res with inl st' => st' | inr (st', _) => st' end)
      = sc_wheels st.
Proof.
  induction fuel as [|fuel IH]; intros st Hfuel; [lia|].
  cbn [ProcessDictionary_loop].
  destruct (negb (eof (sc_file st)) && good (sc_file st)) eqn:Hcond;
    [|by eexists].
  apply andb_prop in Hcond as [_ Hgood].
  destruct (ProcessDictionary_step W st) as [st'|[st' r]] eqn:Hstep.
  - destruct (ProcessDictionary_step_progress W st st' Hgood Hstep)
      as [Hlt Hw].
    destruct (IH st') as (res & Hres & Hw'); [lia|].
    exists res. split; [done|]. by rewrite Hw'.
  - eexists. split; [done|].
    by apply (ProcessDictionary_step_stop W st st' r).
Qed.

(** X8: the dictionary loop ends on every file: within the iterations the
    length of the file allows, ProcessDictionary comes to an end (by an
    exception, at the end of the function, or in a fault), whatever the
    file, the tables and the wheel count are. *)
Theorem ProcessDictionary_ends (file : option (list ascii)) (wheels : Lock)
    (W lettersPerWheel : Z) :
  is_Some (ProcessDictionary file wheels W lettersPerWheel).
Proof.
  unfold ProcessDictionary.
  destruct (negb (good (open file))); [by eexists|].
  destruct (ProcessDictionary_loop_returns W (S (length (rest (open file))))
              (MkScan (open file)
                      (replicate (Z.to_nat (MAXWORDLENGTH + 1)) NUL)
                      0 wheels [] []))
    as (res & -> & _); [simpl; lia|].
  destruct res as [st|stop]; by eexists.
Qed.

(** X9: ProcessDictionary leaves the wheel tables as it found them,
    however the call ends and whatever the dictionary holds. *)
Theorem ProcessDictionary_keeps_tables (file : option (list ascii))
    (wheels : Lock) (W lettersPerWheel : Z) (st : Scan) (r : Result unit) :
  ProcessDictionary file wheels W lettersPerWheel = Some (st, r) ->
  sc_wheels st = wheels.
Proof.
  unfold ProcessDictionary.
  destruct (negb (good (open file))); [by intros [= <- _]|].
  destruct (ProcessDictionary_loop_returns W (S (length (rest (open file))))
              (MkScan (open file)
                      (replicate (Z.to_nat (MAXWORDLENGTH + 1)) NUL)
                      0 wheels [] []))
    as (res & -> & Hw); [simpl; lia|].
  destruct res as [st'|[st' r']]; intros [= <- _]; exact Hw.
Qed.

Lemma ProcessDictionary_keeps_tables_witness :
  exists st r,
    ProcessDictionary (Some (unlines [text "ab"; text "a1"; []; text "BA"]))
                      lock_ab3 3 2 = Some (st, r) /\
    sc_wheels st = lock_ab3.
Proof.
  destruct (ProcessDictionary
              (Some (unlines [text "ab"; text "a1"; []; text "BA"]))
              lock_ab3 3 2) as [[st r]|] eqn:E.
  - exists st, r. split; [reflexivity|].
    exact (ProcessDictionary_keeps_tables _ _ _ _ _ _ E).
  - vm_compute in E. discriminate.
Defined.

(** ** Dictionaries that end in an exception *)

(** The loop over lines that are each closed by a newline. *)
Lemma ProcessDictionary_loop_closed (W : Z) (lock : Lock)
    (front : list (list ascii)) (rest' : list ascii) (fuel : nat) :
  lock_of lock W -> W <= INT_MAX -> Forall line_ok front ->
  forall st : Scan,
  length (sc_word st) = 256%nat -> sc_wheels st = lock ->
  0 <= sc_count st <= UINT_MAX ->
  sc_file st = MkStream (closed_lines front ++ rest') false false ->
  exists word', length word' = 256%nat /\
    ProcessDictionary_loop (length front + fuel) W st =
    ProcessDictionary_loop fuel W
      (MkScan (MkStream rest' false false) word'
              (to_uint (sc_count st + total lock W front)) lock
              (sc_out st ++ printed lock W front)
              (sc_calls st ++ tested W front)).
Proof.
  intros Hlock Hint Hfront.
  induction Hfront as [|l front Hl _ IH];
    intros st Hbuf Hwheels Hcount Hfile.
  - exists (sc_word st). split; [done|].
    unfold total, printed, tested. simpl.
    rewrite Z.add_0_r, to_uint_small, !app_nil_r by done.
    destruct st as [file word count wheels out calls].
    simpl in Hfile, Hwheels. by subst.
  - cbn [closed_lines] in Hfile. rewrite <- app_assoc in Hfile.
    cbn [app] in Hfile.
    destruct (ProcessDictionary_step_line W lock st l
                (NL :: closed_lines front ++ rest')
                (MkStream (closed_lines front ++ rest') false false)
                Hlock Hint Hl Hbuf Hwheels Hcount Hfile)
      as (word1 & Hlen1 & Hstep); [left; by eexists|].
    destruct (IH (scan_line lock W l
                    (MkStream (closed_lines front ++ rest') false false)
                    word1 st))
      as (word' & Hlen' & Hloop);
      [done | done | apply to_uint_range | done |].
    exists word'. split; [done|].
    cbn [length Nat.add ProcessDictionary_loop].
    rewrite Hfile. cbn [sc_file eof good eofbit failbit negb andb].
    rewrite Hstep, Hloop. unfold scan_line.
    cbn [sc_count sc_out sc_calls].
    rewrite to_uint_add_l.
    rewrite (printed_cons lock W l front), (tested_cons W l front).
    change (total lock W (l :: front))
      with (line_matches lock W l + total lock W front).
    by rewrite <- !app_assoc, Z.add_assoc.
Qed.

Lemma closed_lines_length (ls : list (list ascii)) :
  (length ls <= length (closed_lines ls))%nat.
Proof.
  induction ls as [|l ls IH]; simpl; [lia|].
  rewrite length_app. simpl. lia.
Qed.

(** X10: a dictionary whose every line, the last one too, is closed by a
    newline (the empty file as well) ends in the exception for a word that
    is too long: the read after the last line finds only the end of the
    file.  The matching words have been printed by then; no total is. *)
Theorem ProcessDictionary_final_newline (W lettersPerWheel : Z)
    (lock : Lock) (ls : list (list ascii)) :
  lock_of lock W -> W <= INT_MAX -> Forall line_ok ls ->
  exists st,
    ProcessDictionary (Some (closed_lines ls)) lock W lettersPerWheel =
      Some (st, Throw ErrWordTooLong) /\
    sc_out st = printed lock W ls /\ sc_calls st = tested W ls.
Proof.
  intros Hlock Hint Hok.
  unfold ProcessDictionary, open, good.
  cbn [failbit eofbit negb andb rest].
  pose proof (closed_lines_length ls) as Hlen.
  replace (S (length (closed_lines ls)))
    with (length ls + S (length (closed_lines ls) - length ls))%nat by lia.
  destruct (ProcessDictionary_loop_closed W lock ls []
              (S (length (closed_lines ls) - length ls)) Hlock Hint Hok
              (MkScan (MkStream (closed_lines ls) false false)
                      (replicate (Z.to_nat (MAXWORDLENGTH + 1)) NUL)
                      0 lock [] []))
    as (word' & _ & Hloop);
    [reflexivity | done | simpl; unfold UINT_MAX; lia
    | by rewrite app_nil_r |].
  rewrite Hloop. cbn [ProcessDictionary_loop sc_file eof good eofbit failbit
                       negb andb].
  eexists. split; [reflexivity|]. split; reflexivity.
Qed.

Lemma ProcessDictionary_final_newline_witness :
  exists st,
    ProcessDictionary (Some (closed_lines [text "ab"; text "abc"; text "ba"]))
                      lock_ab3 3 2 = Some (st, Throw ErrWordTooLong) /\
    sc_out st = [OutWord (text "ab"); OutWord (text "ba")] /\
    sc_calls st = [text "ab"; text "abc"; text "ba"].
Proof.
  apply (ProcessDictionary_final_newline 3 2 lock_ab3
           [text "ab"; text "abc"; text "ba"]).
  - solve_lock_of.
  - vm_compute; discriminate.
  - repeat (constructor; [solve_line_ok|]). constructor.
Defined.

(** X11: a dictionary line of more than MAXWORDLENGTH characters ends the
    run in the exception for a word that is too long; the words of the
    lines before it have been printed, the lines after it are not read. *)
Theorem ProcessDictionary_long_line (W lettersPerWheel : Z) (lock : Lock)
    (ls : list (list ascii)) (line post : list ascii) (c : ascii) :
  lock_of lock W -> W <= INT_MAX -> Forall line_ok ls ->
  Z.of_nat (length line) = MAXWORDLENGTH -> NL ∉ line -> c <> NL ->
  exists st,
    ProcessDictionary (Some (closed_lines ls ++ line ++ c :: post))
                      lock W lettersPerWheel =
      Some (st, Throw ErrWordTooLong) /\
    sc_out st = printed lock W ls /\ sc_calls st = tested W ls.
Proof.
  intros Hlock Hint Hok Hlen Hnl Hc.
  unfold ProcessDictionary, open, good.
  cbn [failbit eofbit negb andb rest].
  pose proof (closed_lines_length ls) as Hcl.
  set (input := closed_lines ls ++ line ++ c :: post).
  assert (Hin : (length ls < length input)%nat).
  { unfold input. rewrite !length_app. simpl. lia. }
  replace (S (length input))
    with (length ls + S (length input - length ls))%nat by lia.
  destruct (ProcessDictionary_loop_closed W lock ls (line ++ c :: post)
              (S (length input - length ls)) Hlock Hint Hok
              (MkScan (MkStream input false false)
                      (replicate (Z.to_nat (MAXWORDLENGTH + 1)) NUL)
                      0 lock [] []))
    as (word' & _ & Hloop);
    [reflexivity | done | simpl; unfold UINT_MAX; lia | done |].
  rewrite Hloop. cbn [ProcessDictionary_loop sc_file eof good eofbit failbit
                       negb andb].
  unfold ProcessDictionary_step, getline.
  cbn [sc_file sc_word good failbit eofbit negb andb rest].
  change (0 <? MAXWORDLENGTH + 1) with true. cbv iota.
  rewrite (getline_loop_full line post c (MAXWORDLENGTH + 1)) by (done || lia).
  cbn [hit_full orb fail failbit].
  eexists. split; [reflexivity|]. split; reflexivity.
Qed.

Lemma ProcessDictionary_long_line_witness :
  exists st,
    ProcessDictionary
      (Some (closed_lines [text "ab"] ++
             replicate 255 "a"%char ++ "a"%char :: text "b"))
      lock_ab3 3 2 = Some (st, Throw ErrWordTooLong) /\
    sc_out st = [OutWord (text "ab")] /\ sc_calls st = [text "ab"].
Proof.
  apply (ProcessDictionary_long_line 3 2 lock_ab3 [text "ab"]
           (replicate 255 "a"%char) (text "b") "a"%char).
  - solve_lock_of.
  - vm_compute; discriminate.
  - repeat (constructor; [solve_line_ok|]). constructor.
  - reflexivity.
  - apply (bool_decide_unpack _). vm_compute. exact I.
  - discriminate.
Defined.

(** ** Lines that are skipped, words that are printed *)

(** X12: a dictionary line with a character that is not a letter is
    skipped: the iteration goes on to the next line with the count, the
    console, the wheel tables and the record of TestWord calls as they
    were, whatever the tables hold. *)
Theorem ProcessDictionary_skips_non_alphabetic (W : Z) (st : Scan)
    (line after : list ascii) (file' : ifstream) :
  line_ok line ->
  sc_file st = MkStream (line ++ after) false false ->
  (exists tl, after = NL :: tl /\ file' = MkStream tl false false) \/
  (after = [] /\ line <> [] /\ file' = MkStream [] false true) ->
  forallb isalpha (c_str line) = false ->
  exists st',
    ProcessDictionary_step W st = inl st' /\
    sc_file st' = file' /\
    sc_count st' = sc_count st /\ sc_out st' = sc_out st /\
    sc_calls st' = sc_calls st /\ sc_wheels st' = sc_wheels st.
Proof.
  intros Hok Hfile Hafter Hbad.
  rewrite (ProcessDictionary_step_read W st line after file' Hok Hfile Hafter).
  unfold ProcessDictionary_test. rewrite Hbad. cbn [negb].
  eexists. split; done.
Qed.

Lemma ProcessDictionary_skips_non_alphabetic_witness :
  exists st',
    ProcessDictionary_step 6
      (scan_start (text "abc123" ++ NL :: text "ba") lock_ab3) = inl st' /\
    sc_file st' = MkStream (text "ba") false false /\
    sc_count st' = 0 /\ sc_out st' = [] /\
    sc_calls st' = [] /\ sc_wheels st' = lock_ab3.
Proof.
  apply (ProcessDictionary_skips_non_alphabetic 6
           (scan_start (text "abc123" ++ NL :: text "ba") lock_ab3)
           (text "abc123") (NL :: text "ba")
           (MkStream (text "ba") false false)).
  - solve_line_ok.
  - reflexivity.
  - left. by eexists.
  - reflexivity.
Defined.

Lemma alignments_positive (lock : Lock) (word : list ascii) :
  0 < alignments lock word <->
  exists s, (s <= length lock - length word)%nat /\ matches_at lock word s.
Proof.
  unfold alignments. split.
  - intros Hpos.
    destruct (filter (matches_at lock word)
                (seq 0 (S (length lock - length word)))) as [|s l] eqn:Hf;
      [simpl in Hpos; lia|].
    assert (Hs : s ∈ filter (matches_at lock word)
                   (seq 0 (S (length lock - length word))))
      by (rewrite Hf; apply list_elem_of_here).
    apply list_elem_of_filter in Hs as [Hm Hs].
    apply list_elem_of_In, in_seq in Hs. exists s. split; [lia | done].
  - intros (s & Hs & Hm).
    assert (Hin : s ∈ filter (matches_at lock word)
                    (seq 0 (S (length lock - length word)))).
    { apply list_elem_of_filter. split; [done|].
      apply list_elem_of_In, in_seq. lia. }
    destruct (filter (matches_at lock word)
                (seq 0 (S (length lock - length word)))) as [|s' l];
      [by apply elem_of_nil in Hin | simpl; lia].
Qed.

(** X13: what ProcessDictionary has printed when it reaches its end are
    the lines that fit, no more and no less: a word is printed exactly when
    it is the lower-case form of a dictionary line (its characters before
    any NUL) that holds only letters, is not longer than the lock and fits
    the wheels at some offset.  An empty line is such a line: its empty
    word fits everywhere and is printed. *)
Theorem ProcessDictionary_prints_combinations (W lettersPerWheel : Z)
    (lock : Lock) (ls : list (list ascii)) :
  lock_of lock W -> W <= INT_MAX -> dictionary_lines ls ->
  exists st,
    ProcessDictionary (Some (unlines ls)) lock W lettersPerWheel =
      Some (st, Fault) /\
    forall w : list ascii,
      OutWord w ∈ sc_out st <->
      exists line, line ∈ ls /\ w = line_word line /\
        forallb isalpha (c_str line) = true /\
        Z.of_nat (length (c_str line)) <= W /\
        exists s, (s <= length lock - length w)%nat /\ matches_at lock w s.
Proof.
  intros Hlock Hint Hls.
  destruct (ProcessDictionary_lines W lettersPerWheel lock ls Hlock Hint Hls)
    as (st & Hrun & Hout & _).
  exists st. split; [done|]. intros w. rewrite Hout.
  rewrite elem_of_app, list_elem_of_singleton. unfold printed.
  rewrite list_elem_of_fmap. split.
  - intros [(line & Hw & Hline)|Hw]; [|discriminate].
    injection Hw as ->.
    apply list_elem_of_filter in Hline as [Hpos Hline].
    unfold line_matches, line_tested in Hpos.
    destruct (forallb isalpha (c_str line)) eqn:Halpha; [|simpl in Hpos; lia].
    destruct (Z.leb_spec (Z.of_nat (length (c_str line))) W);
      [|simpl in Hpos; lia].
    simpl in Hpos. apply alignments_positive in Hpos.
    exists line. by repeat split.
  - intros (line & Hline & -> & Halpha & Hlen & Hs).
    left. exists line. split; [done|].
    apply list_elem_of_filter. split; [|done].
    unfold line_matches, line_tested. rewrite Halpha.
    destruct (Z.leb_spec (Z.of_nat (length (c_str line))) W); [|lia].
    simpl. by apply alignments_positive.
Qed.

Lemma ProcessDictionary_prints_combinations_witness :
  exists st,
    ProcessDictionary (Some (unlines [text "ab"; text "abc"; text "BA"]))
                      lock_ab3 3 2 = Some (st, Fault) /\
    forall w : list ascii,
      OutWord w ∈ sc_out st <->
      exists line, line ∈ [text "ab"; text "abc"; text "BA"] /\
        w = line_word line /\
        forallb isalpha (c_str line) = true /\
        Z.of_nat (length (c_str line)) <= 3 /\
        exists s, (s <= length lock_ab3 - length w)%nat /\
                  matches_at lock_ab3 w s.
Proof.
  apply (ProcessDictionary_prints_combinations 3 2 lock_ab3
           [text "ab"; text "abc"; text "BA"]).
  - solve_lock_of.
  - vm_compute; discriminate.
  - split.
    + repeat (constructor; [solve_line_ok|]). constructor.
    + exists [text "ab"; text "abc"], (text "BA").
      split; [reflexivity | discriminate].
Defined.

(** ** The whole run *)

Lemma lock_from_lock_of (lines : list (list ascii)) (W : Z) :
  Z.of_nat (length lines) = W -> W <= INT_MAX -> lock_of (lock_from lines) W.
Proof.
  intros HW Hint. unfold lock_from. split.
  - by rewrite fill_length, length_replicate.
  - split; [unfold INT_MAX, UINT_MAX in *; lia|].
    apply fill_tables_ok, tables_ok_fresh.
Qed.

(** X14: the whole run on two well-formed files, as far as it is defined:
    ReadWheelFile returns the lock built from the wheel lines, and
    ProcessDictionary on that lock prints the words of the dictionary that
    fit it and then the sum of their alignment counts.  There the call
    reaches the end of a function without a [return]: what main does
    after it, the prompt included, is not defined. *)
Theorem main_well_formed_run (text tail : list ascii) (W n : Z)
    (lines ls : list (list ascii)) :
  0 < W <= INT_MAX -> 0 < n < UINT_MAX ->
  Z.of_nat (length lines) = W -> Forall (wheel_line n) lines ->
  header text W n (unlines lines ++ tail) ->
  tail = [] \/ (exists t, tail = NL :: t) ->
  dictionary_lines ls -> Forall (fun l => c_str l <> []) ls ->
  words_total (lock_from lines) W ls <= UINT_MAX ->
  exists d st,
    ReadWheelFile (Some text) 0 0 = Ok d /\
    ld_wheels d = lock_from lines /\
    ProcessDictionary (Some (unlines ls)) (ld_wheels d) (ld_wheelCount d)
                      (ld_lettersPerWheel d) = Some (st, Fault) /\
    sc_out st = words_printed (lock_from lines) W ls ++
                [OutFound (words_total (lock_from lines) W ls)] /\
    main (Some text) (Some (unlines ls)) = None.
Proof.
  intros HW Hn Hlen Hlines Hhead Htail Hls Hne Hsum.
  destruct (ReadWheelFile_lines text tail W n lines HW Hn Hlen Hlines
              Hhead Htail) as [letters Hread].
  replace (Z.to_nat W) with (length lines) in Hread by lia.
  fold (lock_from lines) in Hread.
  destruct (ProcessDictionary_words W n (lock_from lines) ls)
    as (st & Hrun & Hout);
    [apply lock_from_lock_of; lia | lia | done | done |].
  eexists _, st. split; [exact Hread|].
  cbn [ld_wheels ld_wheelCount ld_lettersPerWheel].
  split; [done|]. split; [done|]. split.
  - rewrite Hout, to_uint_small; [done|].
    split; [apply words_total_nonneg | done].
  - unfold main. rewrite Hread.
    cbn [ld_wheels ld_wheelCount ld_lettersPerWheel]. by rewrite Hrun.
Qed.

Lemma main_well_formed_run_witness :
  exists d st,
    ReadWheelFile
      (Some (unlines [text "3"; text "2"; text "ab"; text "Ba"; text "ab"]))
      0 0 = Ok d /\
    ld_wheels d = lock_from [text "ab"; text "Ba"; text "ab"] /\
    ProcessDictionary (Some (unlines [text "AB"; text "abc"; text "b"]))
                      (ld_wheels d) (ld_wheelCount d) (ld_lettersPerWheel d)
      = Some (st, Fault) /\
    sc_out st = [OutWord (text "ab"); OutWord (text "b"); OutFound 5] /\
    main (Some (unlines [text "3"; text "2"; text "ab"; text "Ba"; text "ab"]))
         (Some (unlines [text "AB"; text "abc"; text "b"])) = None.
Proof.
  apply (main_well_formed_run
           (unlines [text "3"; text "2"; text "ab"; text "Ba"; text "ab"]) []
           3 2 [text "ab"; text "Ba"; text "ab"]
           [text "AB"; text "abc"; text "b"]).
  - vm_compute. split; [reflexivity | discriminate].
  - vm_compute. split; reflexivity.
  - reflexivity.
  - repeat constructor.
  - exists (MkStream (NL :: unlines [text "2"; text "ab"; text "Ba"; text "ab"])
                     false false).
    split; vm_compute; reflexivity.
  - by left.
  - split.
    + repeat (constructor; [solve_line_ok|]). constructor.
    + exists [text "AB"; text "abc"], (text "b").
      split; [reflexivity | discriminate].
  - repeat (constructor; [discriminate|]). constructor.
  - vm_compute; discriminate.
Defined.

(** ** Wheel files that stop early *)

Lemma getline_failed (s : ifstream) (buf : list ascii) (count : Z) :
  good s = false -> fail (getline s buf count).1 = true.
Proof. intros H. unfold getline. by rewrite H. Qed.

Lemma getline_no_newline (s : ifstream) (buf : list ascii) :
  head (rest s) <> Some NL -> fail (getline s buf 1).1 = true.
Proof.
  intros Hhead. destruct (good s) eqn:Hgood; [|by apply getline_failed].
  unfold getline. rewrite Hgood. cbn [andb Z.ltb Z.compare fst fail failbit].
  destruct (rest s) as [|c tl]; [simpl; by rewrite orb_true_r|].
  cbn [getline_loop]. destruct (Ascii.eqb_spec c NL) as [->|_]; [done|].
  simpl. by rewrite orb_true_r.
Qed.

(** X15: a wheel file that ends before all its wheels are given: after the
    lines of fewer wheels than declared the read finds the end of the file,
    and the run ends with the message for too many letters. *)
Theorem ReadWheelFile_missing_line (text : list ascii) (W n : Z)
    (front : list (list ascii)) :
  wheels_so_far text W n front [] ->
  aborts (Some text) ErrTooManyLetters.
Proof.
  intros Hfar. apply throw_aborts.
  destruct (ReadWheelFile_so_far _ _ _ _ _ Hfar)
    as (m & letters & wheels & _ & _ & ->).
  destruct Hfar as (_ & Hn & _).
  cbn [ReadWheelFile_wheels]. rewrite to_uint_small by lia.
  unfold getline. cbn [good failbit eofbit negb andb rest getline_loop].
  destruct (Z.ltb_spec 0 (n + 1)) as [_|]; [|lia]. done.
Qed.

Lemma ReadWheelFile_missing_line_witness :
  aborts (Some (closed_lines [text "3"; text "2"; text "ab"; text "ab"]))
         ErrTooManyLetters.
Proof.
  apply (ReadWheelFile_missing_line _ 3 2 [text "ab"; text "ab"]).
  solve_so_far (MkStream (NL :: closed_lines [text "2"; text "ab"; text "ab"])
                         false false).
Defined.

(** X16: unless a newline follows the letters-per-wheel number directly
    (a blank after it, or the end of the file), the read that skips to the
    first wheel fails, and the run ends with the message for too many
    letters before any wheel line is looked at. *)
Theorem ReadWheelFile_header_not_closed (text : list ascii) (W n : Z)
    (s1 s2 : ifstream) :
  extract_uint (MkStream text false false) 0 = (W, s1) ->
  extract_uint s1 0 = (n, s2) ->
  0 < W <= INT_MAX -> 0 < n < UINT_MAX ->
  head (rest s2) <> Some NL ->
  aborts (Some text) ErrTooManyLetters.
Proof.
  intros HW Hn HWr Hnr Hhead. apply throw_aborts.
  unfold ReadWheelFile, open, good. cbn [failbit eofbit negb andb].
  rewrite HW.
  destruct (Z.eqb_spec W 0) as [|_]; [lia|].
  destruct (Z.ltb_spec INT_MAX W) as [|_]; [lia|].
  rewrite Hn.
  destruct (Z.eqb_spec n 0) as [|_]; [lia|].
  rewrite to_uint_small by lia.
  destruct (Z.eqb_spec (n + 1) 0) as [|_]; [lia|].
  pose proof (getline_no_newline s2
                (replicate (Z.to_nat (n + 1)) NUL) Hhead) as Hfail.
  destruct (getline s2 (replicate (Z.to_nat (n + 1)) NUL) 1)
    as [s3 letters]. cbn [fst] in Hfail.
  replace (Z.to_nat W) with (S (Z.to_nat W - 1)) by lia.
  cbn [ReadWheelFile_wheels]. rewrite to_uint_small by lia.
  assert (Hbad : good s3 = false).
  { unfold good. unfold fail in Hfail. by rewrite Hfail. }
  pose proof (getline_failed s3 letters (n + 1) Hbad) as Hfail'.
  destruct (getline s3 letters (n + 1)) as [s4 letters'].
  cbn [fst] in Hfail'. by rewrite Hfail'.
Qed.

Lemma ReadWheelFile_header_not_closed_witness :
  aborts (Some (unlines [text "3"; text "2 "; text "ab"; text "ab"; text "ab"]))
         ErrTooManyLetters.
Proof.
  apply (ReadWheelFile_header_not_closed _ 3 2
           (MkStream (NL :: unlines [text "2 "; text "ab"; text "ab"; text "ab"])
                     false false)
           (MkStream (" "%char :: NL :: unlines [text "ab"; text "ab"; text "ab"])
                     false false)).
  - vm_compute. reflexivity.
  - vm_compute. reflexivity.
  - vm_compute. split; [reflexivity | discriminate].
  - vm_compute. split; reflexivity.
  - discriminate.
Defined.

(** ** Every lock that is returned *)

Lemma digits_nonneg (input : list ascii) (seen : bool) (acc : Z) :
  0 <= acc -> 0 <= (digits input seen acc).1.2.
Proof.
  revert seen acc. induction input as [|c tl IH]; intros seen acc Hacc;
    cbn [digits]; [done|].
  destruct (isdigit c) eqn:Hd; [|done].
  apply IH. unfold isdigit in Hd. apply andb_prop in Hd as [Hd _].
  apply N.leb_le in Hd. lia.
Qed.

Lemma extract_uint_nonneg (s : ifstream) (old : Z) :
  0 <= old -> 0 <= (extract_uint s old).1.
Proof.
  intros Hold. unfold extract_uint.
  destruct (negb (good s)); [done|].
  destruct (skipws (rest s)) as [|c tl]; [done|].
  set (body := if Ascii.eqb c "-" || Ascii.eqb c "+" then tl else c :: tl).
  pose proof (digits_nonneg body false 0 ltac:(lia)) as Hv.
  destruct (digits body false 0) as [[seen v] after]. cbn [fst snd] in Hv.
  destruct (negb seen); [done|].
  destruct (UINT_MAX <? v); [vm_compute; discriminate|].
  cbn [fst]. destruct (Ascii.eqb c "-"); [apply to_uint_range | done].
Qed.

Lemma store_done (i k : Z) (b : bool) (wheels : Lock) :
  value (store i k b wheels) = Some tt ->
  heap (store i k b wheels) =
  alter (fun w => <[Z.to_nat k := b]> w) (Z.to_nat i) wheels.
Proof. unfold store. by destruct (cell wheels i k). Qed.

(** The inner loop returns only after [n] letters. *)
Lemma ReadWheelFile_letters_Ok (letters : list ascii) (i : Z) (n : nat) :
  forall (j : nat) (wheels wheels' : Lock),
  ReadWheelFile_letters letters i n (Z.of_nat j) wheels = Ok wheels' ->
  length (take n (drop j letters)) = n /\
  Forall (fun c => isalpha c = true) (take n (drop j letters)) /\
  wheels' = alter (set_letters (take n (drop j letters))) (Z.to_nat i) wheels.
Proof.
  induction n as [|n IH]; intros j wheels wheels'; cbn [ReadWheelFile_letters].
  - intros [= <-]. split; [done|]. split; [constructor|].
    by rewrite (list_alter_id (set_letters [])).
  - rewrite Nat2Z.id.
    destruct (letters !! j) as [c|] eqn:Hc; [|discriminate].
    destruct (isalpha c) eqn:Halpha; cbn [negb];
      [|destruct (Ascii.eqb c NUL); discriminate].
    destruct (value (store i (alphabetindex (tolower c)) true wheels))
      as [[]|] eqn:Hst; [|discriminate].
    rewrite (store_done _ _ _ _ Hst).
    replace (Z.of_nat j + 1) with (Z.of_nat (S j)) by lia.
    intros Hrec. apply IH in Hrec as (Hlen & Hall & ->).
    rewrite (drop_S _ _ _ Hc). cbn [take length].
    split; [by rewrite Hlen|]. split; [by constructor|].
    by rewrite list_alter_alter_eq.
Qed.

(** The outer loop returns only after [m] lines of [n] letters. *)
Lemma ReadWheelFile_wheels_Ok (n : Z) (m : nat) :
  0 < n ->
  forall (i : nat) (s : ifstream) (letters letters' : list ascii)
         (wheels wheels' : Lock),
  ReadWheelFile_wheels n m (Z.of_nat i) s letters wheels
    = Ok (wheels', letters') ->
  exists ls, length ls = m /\ Forall (wheel_line n) ls /\
             wheels' = fill i ls wheels.
Proof.
  intros Hn. induction m as [|m IH];
    intros i s letters letters' wheels wheels'; cbn [ReadWheelFile_wheels].
  - intros [= <- _]. by exists [].
  - destruct (getline s letters (to_uint (n + 1))) as [s' buf].
    destruct (fail s'); [discriminate|].
    destruct (ReadWheelFile_letters buf (Z.of_nat i) (Z.to_nat n) 0 wheels)
      as [wheels1| |] eqn:Hin; [|discriminate|discriminate].
    apply (ReadWheelFile_letters_Ok buf (Z.of_nat i) (Z.to_nat n) 0)
      in Hin as (Hlen & Hall & ->).
    replace (Z.of_nat i + 1) with (Z.of_nat (S i)) by lia.
    intros Hrec. apply IH in Hrec as (ls & Hls & Hlines & ->).
    exists (take (Z.to_nat n) (drop 0 buf) :: ls).
    split; [simpl; by rewrite Hls|]. split.
    + constructor; [|done]. split; [lia | done].
    + cbn [fill]. by rewrite Nat2Z.id.
Qed.

(** X17: whatever wheels.txt holds, a lock that ReadWheelFile returns is
    well formed: the wheel count is positive and within int, the letters
    per wheel are positive, and the tables are those of as many lines as
    wheels, each of exactly that many letters (so every wheel carries a
    letter, and every table has its 26 flags). *)
Theorem ReadWheelFile_returns_lock (file : option (list ascii))
    (d : LockData) :
  ReadWheelFile file 0 0 = Ok d ->
  0 < ld_wheelCount d <= INT_MAX /\ 0 < ld_lettersPerWheel d /\
  lock_of (ld_wheels d) (ld_wheelCount d) /\
  exists lines,
    Z.of_nat (length lines) = ld_wheelCount d /\
    Forall (wheel_line (ld_lettersPerWheel d)) lines /\
    ld_wheels d = lock_from lines.
Proof.
  unfold ReadWheelFile.
  destruct (negb (good (open file))); [discriminate|].
  pose proof (extract_uint_nonneg (open file) 0 ltac:(lia)) as HW.
  destruct (extract_uint (open file) 0) as [W s1]. cbn [fst] in HW.
  destruct (Z.eqb_spec W 0) as [|HW0]; [discriminate|].
  destruct (Z.ltb_spec INT_MAX W) as [|HWmax]; [discriminate|].
  pose proof (extract_uint_nonneg s1 0 ltac:(lia)) as Hn.
  destruct (extract_uint s1 0) as [n s2]. cbn [fst] in Hn.
  destruct (Z.eqb_spec n 0) as [|Hn0]; [discriminate|].
  destruct (to_uint (n + 1) =? 0); [discriminate|].
  destruct (getline s2 _ 1) as [s3 letters].
  destruct (ReadWheelFile_wheels n (Z.to_nat W) 0 s3 letters _)
    as [[wheels letters']| |] eqn:Hloop; [|discriminate|discriminate].
  intros [= <-]. cbn [ld_wheels ld_wheelCount ld_lettersPerWheel].
  apply (ReadWheelFile_wheels_Ok n (Z.to_nat W) ltac:(lia) 0) in Hloop
    as (lines & Hlen & Hlines & ->).
  assert (Hfrom : fill 0 lines
                    (replicate (Z.to_nat W)
                       (replicate (Z.to_nat ALPHABETLENGTH) false))
                  = lock_from lines).
  { unfold lock_from. by rewrite Hlen. }
  rewrite Hfrom.
  split; [lia|]. split; [lia|]. split.
  - apply lock_from_lock_of; lia.
  - exists lines. split; [lia | done].
Qed.

Lemma ReadWheelFile_returns_lock_witness :
  exists d,
    ReadWheelFile (Some (unlines [text "2"; text "3"; text "aba"; text "Bcc"]))
                  0 0 = Ok d /\
    0 < ld_wheelCount d <= INT_MAX /\ 0 < ld_lettersPerWheel d /\
    lock_of (ld_wheels d) (ld_wheelCount d) /\
    exists lines,
      Z.of_nat (length lines) = ld_wheelCount d /\
      Forall (wheel_line (ld_lettersPerWheel d)) lines /\
      ld_wheels d = lock_from lines.
Proof.
  destruct (ReadWheelFile
              (Some (unlines [text "2"; text "3"; text "aba"; text "Bcc"]))
              0 0) as [d|e|] eqn:E.
  - exists d. split; [reflexivity|].
    exact (ReadWheelFile_returns_lock _ d E).
  - vm_compute in E. discriminate.
  - vm_compute in E. discriminate.
Defined.

Lemma set_letters_toupper (line : list ascii) (w : Wheel) :
  set_letters (map toupper line) w = set_letters line w.
Proof.
  unfold set_letters. revert w.
  induction line as [|c line IH]; intros w; cbn [map foldl]; [done|].
  by rewrite tolower_toupper, IH.
Qed.

Lemma fill_toupper (lines : list (list ascii)) (i : nat) (wheels : Lock) :
  fill i (map (map toupper) lines) wheels = fill i lines wheels.
Proof.
  revert i wheels. induction lines as [|l lines IH]; intros i wheels;
    cbn [map fill]; [done|].
  rewrite IH. f_equal. apply list_alter_ext; [|done].
  intros w _. apply set_letters_toupper.
Qed.

(** X18: the case of the letters in wheels.txt does not matter: two wheel
    files with the same counts whose wheel lines differ only in that one
    has them in upper case give the same tables. *)
Theorem ReadWheelFile_case_insensitive (text text' tail tail' : list ascii)
    (W n : Z) (lines : list (list ascii)) :
  0 < W <= INT_MAX -> 0 < n < UINT_MAX ->
  Z.of_nat (length lines) = W -> Forall (wheel_line n) lines ->
  header text W n (unlines lines ++ tail) ->
  header text' W n (unlines (map (map toupper) lines) ++ tail') ->
  tail = [] \/ (exists t, tail = NL :: t) ->
  tail' = [] \/ (exists t, tail' = NL :: t) ->
  exists d d',
    ReadWheelFile (Some text) 0 0 = Ok d /\
    ReadWheelFile (Some text') 0 0 = Ok d' /\
    ld_wheels d' = ld_wheels d.
Proof.
  intros HW Hn Hlen Hlines Hhead Hhead' Htail Htail'.
  destruct (ReadWheelFile_lines text tail W n lines HW Hn Hlen Hlines
              Hhead Htail) as [letters Hrun].
  destruct (ReadWheelFile_lines text' tail' W n (map (map toupper) lines)
              HW Hn) as [letters' Hrun']; try done.
  { by rewrite length_map. }
  { apply Forall_fmap. eapply Forall_impl; [exact Hlines|].
    intros l [Hl Hall]. split; [by rewrite length_map|].
    by apply toupper_alphabetic. }
  eexists _, _. split; [exact Hrun|]. split; [exact Hrun'|].
  cbn [ld_wheels]. apply fill_toupper.
Qed.

Lemma ReadWheelFile_case_insensitive_witness :
  exists d d',
    ReadWheelFile (Some (unlines [text "2"; text "2"; text "ab"; text "cA"]))
                  0 0 = Ok d /\
    ReadWheelFile (Some (unlines [text "2"; text "2"; text "AB"; text "CA"]))
                  0 0 = Ok d' /\
    ld_wheels d' = ld_wheels d.
Proof.
  apply (ReadWheelFile_case_insensitive
           (unlines [text "2"; text "2"; text "ab"; text "cA"])
           (unlines [text "2"; text "2"; text "AB"; text "CA"]) [] []
           2 2 [text "ab"; text "cA"]).
  - vm_compute. split; [reflexivity | discriminate].
  - vm_compute. split; reflexivity.
  - reflexivity.
  - repeat constructor.
  - exists (MkStream (NL :: unlines [text "2"; text "ab"; text "cA"])
                     false false).
    split; vm_compute; reflexivity.
  - exists (MkStream (NL :: unlines [text "2"; text "AB"; text "CA"])
                     false false).
    split; vm_compute; reflexivity.
  - by left.
  - by left.
Defined.
